(** * Client message broker of the web-worker platform

    A shallow embedding of
    [modules/@angular/platform-webworker/src/web_workers/shared/client_message_broker.ts]
    and the properties of its request bookkeeping: request ids, the pending
    table, argument encoding, and the routing of [result] / [error] messages
    to the promise of the call they answer. *)

From stdpp Require Import gmap strings list fin_maps pretty.

Set Warnings "-register-all".

(** ** JavaScript values

    The values that cross the channel are structured data.  [VTypeError] is
    the exception the broker's own code can raise: a property read on a
    [null] collaborator, or the call of a value that is no function.  No
    constructor is callable, so no wire value is a thenable. *)

Inductive JsVal :=
| VUndefined
| VNull
| VBool (b : bool)
| VNum (z : Z)
| VStr (s : string)
| VArr (l : list JsVal)
| VObj (o : gmap string JsVal)
| VTypeError (msg : string).

(** A plain object [{[key: string]: any}], given by its own properties. *)
Abbreviation JsObj := (gmap string JsVal).

(** Outcome of running a piece of the source: a value, a JavaScript
    exception, or a loop that did not finish within the steps granted. *)
Inductive Res (A : Type) :=
| Ok (a : A)
| Throw (e : JsVal)
| Diverge.
Arguments Ok {A} a.
Arguments Throw {A} e.
Arguments Diverge {A}.

#[global] Instance Res_bind : MBind Res := λ A B k r,
  match r with
  | Ok a => k a
  | Throw e => Throw e
  | Diverge => Diverge
  end.

(** The string of a number inside a template literal, for the non-negative
    integers the broker counts with: the decimal digits. *)
Definition number_to_string (n : N) : string := pretty n.

(** Modelled from the spec: [stringify] of [facade/lang], which is not among
    the sources.  The broker applies it to numbers only (a time stamp and the
    counter of the id loop), and the spec has the id as method name, time
    stamp and integer suffix concatenated: on a number it gives the number's
    string. *)
Definition stringify (n : N) : string := number_to_string n.

(** ** Promises

    The promise objects the broker creates live in a heap; the closures it
    hands to [catch] and [then] are kept in defunctionalised form, each with
    the variables it captures. *)

Abbreviation PromiseId := nat.

Inductive Outcome :=
| Fulfilled (v : JsVal)
| Rejected (e : JsVal).

Inductive PromiseState :=
| Pending
| Settled (o : Outcome).

(** [interface PromiseCompleter { resolve; reject }]: the two resolving
    functions of one promise. *)
Record PromiseCompleter := { settles : PromiseId }.

Section Model.
Context {Ty : Type}.

(** The injected [Serializer], by the two methods the broker calls. *)
Record Serializer := {
  serialize : JsVal → Ty → JsVal;
  deserialize : JsVal → Ty → JsVal;
}.

Inductive Handler :=
| LogAndReject (completer : PromiseCompleter)
| Deserialize (returnType : Ty).

Record Reaction := {
  onFulfilled : option Handler;
  onRejected : option Handler;
  derived : PromiseId;
}.

Record PromiseCell := {
  pstate : PromiseState;
  reactions : list Reaction;
}.

Record Job := {
  job_reaction : Reaction;
  job_outcome : Outcome;
}.

(** [class FnArg] and [class UiArguments]. *)
Record FnArg := {
  fa_value : JsVal;
  fa_type : option Ty;
}.

Record UiArguments := {
  ua_method : string;
  ua_args : option (list FnArg);
}.

(** [class MessageData]. *)
Record MessageData := {
  md_type : JsVal;
  md_value : JsVal;
  md_id : JsVal;
}.

(** The broker's fields, then the part of the JavaScript runtime it acts on:
    the sink's emitted messages (oldest first), the promise heap, the queue
    of promise jobs, and the lines written by [console.log] ([None] when no
    usable [console.log] exists, the case the guard
    [if (console && console.log)] of the [catch] handler provides for). *)
Record ClientMessageBroker_ := {
  _pending : gmap string PromiseCompleter;
  _serializer : option Serializer;
  _sink : list JsVal;
  heap : list PromiseCell;
  microtasks : list Job;
  console : option (list JsVal);
}.

Definition set_pending (f : gmap string PromiseCompleter → gmap string PromiseCompleter)
    (b : ClientMessageBroker_) : ClientMessageBroker_ :=
  {| _pending := f (_pending b); _serializer := _serializer b; _sink := _sink b;
     heap := heap b; microtasks := microtasks b; console := console b |}.

Definition set_sink (f : list JsVal → list JsVal)
    (b : ClientMessageBroker_) : ClientMessageBroker_ :=
  {| _pending := _pending b; _serializer := _serializer b; _sink := f (_sink b);
     heap := heap b; microtasks := microtasks b; console := console b |}.

Definition set_heap (f : list PromiseCell → list PromiseCell)
    (b : ClientMessageBroker_) : ClientMessageBroker_ :=
  {| _pending := _pending b; _serializer := _serializer b; _sink := _sink b;
     heap := f (heap b); microtasks := microtasks b; console := console b |}.

Definition set_microtasks (f : list Job → list Job)
    (b : ClientMessageBroker_) : ClientMessageBroker_ :=
  {| _pending := _pending b; _serializer := _serializer b; _sink := _sink b;
     heap := heap b; microtasks := f (microtasks b); console := console b |}.

Definition set_console (f : option (list JsVal) → option (list JsVal))
    (b : ClientMessageBroker_) : ClientMessageBroker_ :=
  {| _pending := _pending b; _serializer := _serializer b; _sink := _sink b;
     heap := heap b; microtasks := microtasks b; console := f (console b) |}.

(** [new ClientMessageBroker_(messageBus, _serializer, channel)]. *)
Definition new_ClientMessageBroker_ (ser : option Serializer)
    (con : option (list JsVal)) : ClientMessageBroker_ :=
  {| _pending := ∅; _serializer := ser; _sink := []; heap := [];
     microtasks := []; console := con |}.

(** *** Promise primitives *)

(** [new Promise((resolve, reject) => ...)]: a fresh pending promise. *)
Definition new_Promise (b : ClientMessageBroker_) : ClientMessageBroker_ * PromiseId :=
  (set_heap (λ h, h ++ [{| pstate := Pending; reactions := [] |}]) b,
   length (heap b)).

(** Settling a pending promise queues one job per registered reaction; a
    promise that is already settled ignores the call. *)
Definition settle (p : PromiseId) (o : Outcome)
    (b : ClientMessageBroker_) : ClientMessageBroker_ :=
  match heap b !! p with
  | Some {| pstate := Pending; reactions := rs |} =>
      set_microtasks
        (λ q, q ++ map (λ r, {| job_reaction := r; job_outcome := o |}) rs)
        (set_heap (<[p := {| pstate := Settled o; reactions := [] |}]>) b)
  | _ => b
  end.

Definition completer_resolve (c : PromiseCompleter) (v : JsVal) :=
  settle (settles c) (Fulfilled v).

Definition completer_reject (c : PromiseCompleter) (e : JsVal) :=
  settle (settles c) (Rejected e).

(** [p.then(onFulfilled, onRejected)]: a fresh derived promise; the reaction
    waits on [p] while [p] is pending and is queued at once otherwise. *)
Definition promise_then (p : PromiseId) (onF onR : option Handler)
    (b : ClientMessageBroker_) : ClientMessageBroker_ * PromiseId :=
  let '(b1, d) := new_Promise b in
  let r := {| onFulfilled := onF; onRejected := onR; derived := d |} in
  match heap b1 !! p with
  | Some {| pstate := Pending; reactions := rs |} =>
      (set_heap (<[p := {| pstate := Pending; reactions := rs ++ [r] |}]>) b1, d)
  | Some {| pstate := Settled o; reactions := _ |} =>
      (set_microtasks (λ q, q ++ [{| job_reaction := r; job_outcome := o |}]) b1, d)
  | None => (b1, d)
  end.

Definition promise_catch (p : PromiseId) (onR : Handler) :=
  promise_then p None (Some onR).

(** Reading a method off [this._serializer]: a [TypeError] when it is null. *)
Definition method_of (ser : option Serializer) : Res Serializer :=
  match ser with
  | Some s => Ok s
  | None => Throw (VTypeError "Cannot read property of null")
  end.

(** The bodies of the two closures of [runOnService].

    [LogAndReject completer] is
    [(err) => { if (console && console.log) { console.log(err); } completer.reject(err); }];
    the guard is the [fmap] over the optional console.

    [Deserialize returnType] is
    [(value) => this._serializer ? value : this._serializer.deserialize(value, returnType)] *)
Definition runHandler (h : Handler) (x : JsVal)
    (b : ClientMessageBroker_) : ClientMessageBroker_ * Res JsVal :=
  match h with
  | LogAndReject completer =>
      let b1 := set_console (fmap (λ lines, lines ++ [x])) b in
      (completer_reject completer x b1, Ok VUndefined)
  | Deserialize returnType =>
      (b, match _serializer b with
          | Some _ => Ok x
          | None => s ← method_of (_serializer b); Ok (deserialize s x returnType)
          end)
  end.

(** One promise reaction job: run the handler matching the outcome and settle
    the derived promise with what it returns or throws; without a handler
    the outcome passes through. *)
Definition runJob (j : Job) (b : ClientMessageBroker_) : ClientMessageBroker_ :=
  let r := job_reaction j in
  let handler :=
    match job_outcome j with
    | Fulfilled _ => onFulfilled r
    | Rejected _ => onRejected r
    end in
  let x := match job_outcome j with Fulfilled v => v | Rejected e => e end in
  match handler with
  | None => settle (derived r) (job_outcome j) b
  | Some h =>
      match runHandler h x b with
      | (b1, Ok v) => settle (derived r) (Fulfilled v) b1
      | (b1, Throw e) => settle (derived r) (Rejected e) b1
      | (b1, Diverge) => b1
      end
  end.

(** Running the job queue after the current task, at most [fuel] jobs. *)
Fixpoint runMicrotasks (fuel : nat) (b : ClientMessageBroker_) : ClientMessageBroker_ :=
  match fuel, microtasks b with
  | S fuel', j :: q => runMicrotasks fuel' (runJob j (set_microtasks (λ _, q) b))
  | _, _ => b
  end.

(** *** [_generateMessageId] *)

(** The [while (this._pending.has(id))] loop, from the state [(id, iteration)];
    [fuel] bounds the number of times its body runs.  The body is
    [id = `${name}${time}${iteration}`; iteration++;].  The counter is a
    natural number: number arithmetic is exact below 2^53, far above the size
    of any table. *)
Fixpoint generate_loop (fuel : nat) (pending : gmap string PromiseCompleter)
    (name time : string) (id : string) (iteration : N) : Res string :=
  match pending !! id with
  | None => Ok id
  | Some _ =>
      match fuel with
      | O => Diverge
      | S fuel' =>
          generate_loop fuel' pending name time
            ((name +:+ time) +:+ number_to_string iteration) (iteration + 1)
      end
  end.

(** [now] is the value of [new Date().getTime()]. *)
Definition _generateMessageId_within (fuel : nat)
    (pending : gmap string PromiseCompleter) (name : string) (now : N) : Res string :=
  let time := stringify now in
  let iteration := 0%N in
  let id := (name +:+ time) +:+ stringify iteration in
  generate_loop fuel pending name time id iteration.

Definition _generateMessageId (b : ClientMessageBroker_) (name : string) (now : N)
    : Res string :=
  _generateMessageId_within (S (size (_pending b))) (_pending b) name now.

(** *** [runOnService] *)

(** [args.args.forEach(argument => ...)], appending to [fnArgs]. *)
Fixpoint forEach_push (ser : option Serializer) (l : list FnArg)
    (fnArgs : list JsVal) : Res (list JsVal) :=
  match l with
  | [] => Ok fnArgs
  | argument :: rest =>
      match fa_type argument with
      | Some type =>
          s ← method_of ser;
          forEach_push ser rest (fnArgs ++ [serialize s (fa_value argument) type])
      | None => forEach_push ser rest (fnArgs ++ [fa_value argument])
      end
  end.

(** [this._sink.emit(message)]. *)
Definition emit (message : JsVal) : ClientMessageBroker_ → ClientMessageBroker_ :=
  set_sink (λ out, out ++ [message]).

(** The result is the broker after the call and the returned promise
    ([None] for [null]).  An exception leaves the broker as it was: the only
    statements that can throw come before the first write. *)
Definition runOnService (b : ClientMessageBroker_) (args : UiArguments)
    (returnType : option Ty) (now : N)
    : Res (ClientMessageBroker_ * option PromiseId) :=
  fnArgs ← match ua_args args with
           | Some l => forEach_push (_serializer b) l []
           | None => Ok []
           end;
  '(b', promise, id) ←
    match returnType with
    | Some rt =>
        let '(b1, p) := new_Promise b in
        let completer := {| settles := p |} in
        id ← _generateMessageId b1 (ua_method args) now;
        let b2 := set_pending (<[id := completer]>) b1 in
        let '(b3, _) := promise_catch p (LogAndReject completer) b2 in
        let '(b4, p') := promise_then p (Some (Deserialize rt)) None b3 in
        Ok (b4, Some p', Some id)
    | None => Ok (b, None, None)
    end;
  let message : JsObj := {[ "method" := VStr (ua_method args); "args" := VArr fnArgs ]} in
  let message :=
    match id with
    | Some id => <[ "id" := VStr id ]> message
    | None => message
    end in
  Ok (emit (VObj message) b', promise).

(** *** Inbound messages *)

(** [data[key]]: [undefined] when the property is missing. *)
Definition get_property (data : JsObj) (key : string) : JsVal :=
  default VUndefined (data !! key).

(** [data.hasOwnProperty(key)].  The method is looked up on the payload
    itself: an own property named [hasOwnProperty] shadows the method of
    [Object.prototype], and as no value of a payload is callable the call is
    then a [TypeError]. *)
Definition hasOwnProperty (data : JsObj) (key : string) : Res bool :=
  match data !! "hasOwnProperty" with
  | Some _ => Throw (VTypeError "data.hasOwnProperty is not a function")
  | None => Ok (bool_decide (is_Some (data !! key)))
  end.

(** [data.hasOwnProperty(key) ? data[key] : null]. *)
Definition _getValueIfPresent (data : JsObj) (key : string) : Res JsVal :=
  present ← hasOwnProperty data key;
  Ok (if present : bool then get_property data key else VNull).

(** [new MessageData(data)]: [type] is read directly, then [id] and [value]
    through [_getValueIfPresent]. *)
Definition new_MessageData (data : JsObj) : Res MessageData :=
  let type := get_property data "type" in
  id ← _getValueIfPresent data "id";
  value ← _getValueIfPresent data "value";
  Ok {| md_type := type; md_id := id; md_value := value |}.

(** [x === 'literal']. *)
Definition strict_eq_str (x : JsVal) (s : string) : bool :=
  match x with
  | VStr s' => bool_decide (s' = s)
  | _ => false
  end.

(** [this._pending.get(id)]; the keys of the table are strings, so only a
    string can hit one.  [this._pending.has(id)] is whether it answers. *)
Definition pending_get (b : ClientMessageBroker_) (id : JsVal) : option PromiseCompleter :=
  match id with
  | VStr s => _pending b !! s
  | _ => None
  end.

(** [this._pending.delete(id)]. *)
Definition pending_delete (id : JsVal) (b : ClientMessageBroker_) : ClientMessageBroker_ :=
  match id with
  | VStr s => set_pending (delete s) b
  | _ => b
  end.

(** The handler returns the broker it leaves behind, or throws what the
    construction of [MessageData] throws, before it has changed anything. *)
Definition _handleMessage (b : ClientMessageBroker_) (message : JsObj)
    : Res ClientMessageBroker_ :=
  data ← new_MessageData message;
  Ok (if strict_eq_str (md_type data) "result" || strict_eq_str (md_type data) "error"
      then
        let id := md_id data in
        match pending_get b id with
        | Some completer =>
            let b1 :=
              if strict_eq_str (md_type data) "result"
              then completer_resolve completer (md_value data) b
              else completer_reject completer (md_value data) b in
            pending_delete id b1
        | None => b
        end
      else b).

(** The broker after the handler ran on [message]: an exception of the
    handler goes to the bus and leaves the broker as it was. *)
Definition after_handleMessage (b : ClientMessageBroker_) (message : JsObj)
    : ClientMessageBroker_ :=
  match _handleMessage b message with
  | Ok b' => b'
  | _ => b
  end.

(** One delivery by the bus: the handler runs, then the promise jobs it
    queued. *)
Definition deliver (fuel : nat) (b : ClientMessageBroker_) (message : JsObj)
    : ClientMessageBroker_ :=
  runMicrotasks fuel (after_handleMessage b message).

(** The state of a promise, as an observer holding it sees it. *)
Definition promise_state (b : ClientMessageBroker_) (p : PromiseId) : option PromiseState :=
  pstate <$> heap b !! p.

End Model.

(** ** Sample data

    Type tags are class names here; the sample serializer wraps what it
    encodes and decodes, so that an encoded or decoded value is never the raw
    one. *)

Definition sample_serializer : Serializer (Ty := string) :=
  {| serialize v t := VArr [VStr t; v];
     deserialize v t := VObj {[ t := v ]} |}.

Definition call_foo (args : option (list (FnArg (Ty := string)))) : UiArguments :=
  {| ua_method := "foo"; ua_args := args |}.

(** [{type: "result", id, value}] and [{type: "error", id, value}], as the
    service side sends them. *)
Definition result_message (id : string) (value : JsVal) : JsObj :=
  {[ "type" := VStr "result"; "id" := VStr id; "value" := value ]}.

Definition error_message (id : string) (value : JsVal) : JsObj :=
  {[ "type" := VStr "error"; "id" := VStr id; "value" := value ]}.

(** A message that also has a field named [hasOwnProperty]. *)
Definition shadowing (message : JsObj) : JsObj :=
  <[ "hasOwnProperty" := VNum 1 ]> message.

(** ** Vocabulary of the properties *)

Section Vocabulary.
Context {Ty : Type}.
Implicit Types (b : ClientMessageBroker_ (Ty := Ty)) (ua : UiArguments (Ty := Ty)).
Implicit Types (ser : Serializer (Ty := Ty)).

(** What [runOnService] puts in the slot of one argument when a serializer
    is configured. *)
Definition encoded ser (a : FnArg) : JsVal :=
  match fa_type a with
  | Some type => serialize ser (fa_value a) type
  | None => fa_value a
  end.

(** The slot of one argument in general: encoded when it carries a type tag
    and a serializer is there to encode it, the raw value otherwise; and the
    slots of all arguments of a call, none when it has no [args] array. *)
Definition slot (o : option (Serializer (Ty := Ty))) (a : FnArg (Ty := Ty)) : JsVal :=
  match fa_type a, o with
  | Some type, Some s => serialize s (fa_value a) type
  | _, _ => fa_value a
  end.

Definition slots (o : option (Serializer (Ty := Ty))) ua : list JsVal :=
  match ua_args ua with
  | Some l => map (slot o) l
  | None => []
  end.

(** The arguments of a call can be encoded: a serializer is configured, or
    no argument carries a type tag. *)
Definition encodable (o : option (Serializer (Ty := Ty))) ua : Prop :=
  is_Some o ∨ ∀ l, ua_args ua = Some l → Forall (λ a, fa_type a = None) l.

(** The message [{method, args}] before an id is added. *)
Definition call_message (method : string) (fnArgs : list JsVal) : JsObj :=
  {[ "method" := VStr method; "args" := VArr fnArgs ]}.

Definition catch_reaction (p : PromiseId) : Reaction (Ty := Ty) :=
  {| onFulfilled := None;
     onRejected := Some (LogAndReject {| settles := p |});
     derived := p + 1 |}.

Definition then_reaction (rt : Ty) (p : PromiseId) : Reaction :=
  {| onFulfilled := Some (Deserialize rt); onRejected := None; derived := p + 2 |}.

(** The three promises of one call: the one the completer settles, the one
    [catch] returns, and the one [then] returns, handed to the caller. *)
Definition call_cells (rt : Ty) (p : PromiseId) : list PromiseCell :=
  [ {| pstate := Pending; reactions := [catch_reaction p; then_reaction rt p] |};
    {| pstate := Pending; reactions := [] |};
    {| pstate := Pending; reactions := [] |} ].

(** The encoded arguments of a call. *)
Definition call_args (o : option Serializer) ua : Res (list JsVal) :=
  match ua_args ua with
  | Some l => forEach_push o l []
  | None => Ok []
  end.

(** The id carried by the message emitted last, if it has one. *)
Definition emitted_id b : option string :=
  match last (_sink b) with
  | Some (VObj message) =>
      match message !! "id" with
      | Some (VStr id) => Some id
      | _ => None
      end
  | _ => None
  end.

(** A client issuing calls with a return type one after the other, no
    response arriving in between; it notes the id of each message sent. *)
Fixpoint issue_all b (calls : list (UiArguments (Ty := Ty) * Ty * N))
    : Res (ClientMessageBroker_ (Ty := Ty) * list string) :=
  match calls with
  | [] => Ok (b, [])
  | (ua, rt, now) :: rest =>
      '(b1, _) ← runOnService b ua (Some rt) now;
      id ← from_option Ok (Throw VUndefined) (emitted_id b1);
      '(b2, ids) ← issue_all b1 rest;
      Ok (b2, id :: ids)
  end.

(** The call behind the pending id [id]: issued with return type [rt], its
    caller holds [promise], and nothing has answered it yet. *)
Definition outstanding b (id : string) (rt : Ty) (promise : PromiseId) : Prop :=
  ∃ p,
    _pending b !! id = Some {| settles := p |} ∧
    promise = p + 2 ∧
    heap b !! p
    = Some {| pstate := Pending;
              reactions := [catch_reaction p; then_reaction rt p] |} ∧
    heap b !! (p + 1) = Some {| pstate := Pending; reactions := [] |} ∧
    heap b !! (p + 2) = Some {| pstate := Pending; reactions := [] |}.

(** What holds of the broker between two tasks: no promise job is waiting,
    every pending entry is an outstanding call, and no two entries share a
    completer. *)
Definition broker_inv b : Prop :=
  microtasks b = [] ∧
  (∀ id c, _pending b !! id = Some c → ∃ rt, outstanding b id rt (settles c + 2)) ∧
  (∀ id1 id2 c,
     _pending b !! id1 = Some c → _pending b !! id2 = Some c → id1 = id2).

(** A settled promise, and the heap once the three promises of the call
    whose completer settles [p] have their outcomes. *)
Definition settled (o : Outcome) : PromiseCell (Ty := Ty) :=
  {| pstate := Settled o; reactions := [] |}.

Definition answered (p : PromiseId) (o o1 o2 : Outcome)
    (h : list (PromiseCell (Ty := Ty))) : list PromiseCell :=
  <[p + 2 := settled o2]> (<[p + 1 := settled o1]> (<[p := settled o]> h)).

(** What the caller of a call with a return type sees when the raw value
    [v] answers it. *)
Definition result_outcome b (v : JsVal) : Outcome :=
  match _serializer b with
  | Some _ => Fulfilled v
  | None => Rejected (VTypeError "Cannot read property of null")
  end.

(** The outcomes of the promise returned by [catch] and of the promise
    returned by [then] once the completer's promise has outcome [o], and the
    console after the [catch] handler ran. *)
Definition caught_outcome (o : Outcome) : Outcome :=
  match o with
  | Fulfilled v => Fulfilled v
  | Rejected _ => Fulfilled VUndefined
  end.

Definition returned_outcome b (o : Outcome) : Outcome :=
  match o with
  | Fulfilled v => result_outcome b v
  | Rejected e => Rejected e
  end.

Definition console_after (o : Outcome) (con : option (list JsVal)) :=
  match o with
  | Fulfilled _ => con
  | Rejected e => (λ lines, lines ++ [e]) <$> con
  end.

(** The broker once the call pending under [id], whose completer settles
    [p], was answered with [o] and the promise jobs have run. *)
Definition answer_state b (id : string) (p : PromiseId) (o : Outcome)
    : ClientMessageBroker_ (Ty := Ty) :=
  {| _pending := delete id (_pending b);
     _serializer := _serializer b;
     _sink := _sink b;
     heap := answered p o (caught_outcome o) (returned_outcome b o) (heap b);
     microtasks := [];
     console := console_after o (console b) |}.

(** The states a broker goes through: it is created, calls are made on it,
    and the bus delivers messages, each delivery followed by the promise jobs
    it gave rise to. *)
Inductive reachable : ClientMessageBroker_ (Ty := Ty) → Prop :=
| reachable_new (injected : option Serializer) con :
    reachable (new_ClientMessageBroker_ injected con)
| reachable_call b ua returnType now b' returned :
    reachable b →
    runOnService b ua returnType now = Ok (b', returned) →
    reachable b'
| reachable_deliver b message fuel :
    reachable b →
    reachable (deliver (S (S fuel)) b message).

(** [console.log] wrote [x] last. *)
Definition logged b (x : JsVal) : Prop :=
  ∃ lines, console b = Some lines ∧ last lines = Some x.

End Vocabulary.

(** ** Sample brokers *)

Definition state_of {Ty} (r : Res (ClientMessageBroker_ (Ty := Ty) * option PromiseId))
    (otherwise : ClientMessageBroker_) : ClientMessageBroker_ :=
  match r with
  | Ok (b, _) => b
  | _ => otherwise
  end.

Definition fresh_broker : ClientMessageBroker_ :=
  new_ClientMessageBroker_ (Some sample_serializer) (Some []).

(** [fresh_broker] after [foo] was called once with a return type, at time
    1478: the call is pending under the id ["foo14780"] and its caller holds
    promise 2. *)
Definition one_pending : ClientMessageBroker_ :=
  state_of (runOnService fresh_broker (call_foo None) (Some "T") 1478) fresh_broker.

(** The same on a broker without serializer, and on one without console. *)
Definition one_pending_no_serializer : ClientMessageBroker_ (Ty := string) :=
  let b := new_ClientMessageBroker_ None (Some []) in
  state_of (runOnService b (call_foo None) (Some "T") 1478) b.

Definition one_pending_no_console : ClientMessageBroker_ :=
  let b := new_ClientMessageBroker_ (Some sample_serializer) None in
  state_of (runOnService b (call_foo None) (Some "T") 1478) b.

(** Three calls of [foo] within the same millisecond. *)
Definition three_calls : list (UiArguments (Ty := string) * string * N) :=
  [ (call_foo None, "T", 1478%N);
    (call_foo (Some [ {| fa_value := VNum 5; fa_type := Some "Number" |} ]), "T", 1478%N);
    (call_foo None, "U", 1478%N) ].

Definition after_three_calls : ClientMessageBroker_ :=
  match issue_all fresh_broker three_calls with
  | Ok (b, _) => b
  | _ => fresh_broker
  end.

(** ** Vocabulary of the further properties *)

Section Traffic.
Context {Ty : Type}.
Implicit Types (b : ClientMessageBroker_ (Ty := Ty)).

(** The id made of a method name, a time stamp and the suffix [k]. *)
Definition seed_id (name : string) (now : N) (k : nat) : string :=
  (name +:+ stringify now) +:+ number_to_string (N.of_nat k).

(** A message carrying [id] was emitted on the sink. *)
Definition sent b (id : string) : Prop :=
  ∃ message : JsObj, VObj message ∈ _sink b ∧ message !! "id" = Some (VStr id).

(** What happens to a broker over time: calls that return, and deliveries of
    messages that satisfy [allowed], each followed by its promise jobs. *)
Inductive traffic (allowed : JsObj → Prop)
    : ClientMessageBroker_ (Ty := Ty) → ClientMessageBroker_ (Ty := Ty) → Prop :=
| traffic_none b : traffic allowed b b
| traffic_call b b1 ua returnType now b2 returned :
    traffic allowed b b1 →
    runOnService b1 ua returnType now = Ok (b2, returned) →
    traffic allowed b b2
| traffic_deliver b b1 message fuel :
    traffic allowed b b1 →
    allowed message →
    traffic allowed b (deliver (S (S fuel)) b1 message).

(** The messages that do not carry [id]. *)
Definition other_than (id : string) (message : JsObj) : Prop :=
  message !! "id" ≠ Some (VStr id).

End Traffic.

(** [one_pending] once the error ["boom"] answered its call. *)
Definition one_answered : ClientMessageBroker_ :=
  deliver 2 one_pending (error_message "foo14780" (VStr "boom")).

(** A broker without serializer. *)
Definition bare_broker : ClientMessageBroker_ (Ty := string) :=
  new_ClientMessageBroker_ None (Some []).

(** * Properties *)

(** ** Request ids *)

Section IdGeneration.
Implicit Types (pending : gmap string PromiseCompleter) (seed name time : string).

Lemma suffix_inj seed (i j : N) :
  seed +:+ number_to_string i = seed +:+ number_to_string j → i = j.
Proof.
  intros H. apply String.app_inj in H. by apply (inj pretty) in H.
Qed.

(** Among the first [size pending + 1] suffixes one is not a key of the
    table. *)
Lemma free_suffix_exists pending seed :
  ∃ k : nat,
    k ≤ size pending ∧ pending !! (seed +:+ number_to_string (N.of_nat k)) = None.
Proof.
  set (f := λ k : nat, seed +:+ number_to_string (N.of_nat k)).
  set (ks := seq 0 (S (size pending))).
  destruct (decide (Forall (λ k, is_Some (pending !! f k)) ks)) as [Hall|Hex].
  - exfalso.
    assert (Hinj : Inj (=) (=) f).
    { intros i j Hij. apply suffix_inj in Hij. lia. }
    assert (Hnd : NoDup (f <$> ks)).
    { apply (NoDup_fmap_2 f), NoDup_seq. }
    assert (Hsub : list_to_set (C := gset string) (f <$> ks) ⊆ dom pending).
    { intros x Hx. apply elem_of_list_to_set, list_elem_of_fmap in Hx as (k & -> & Hk).
      apply elem_of_dom. rewrite Forall_forall in Hall. by apply Hall. }
    apply subseteq_size in Hsub.
    rewrite size_list_to_set, length_fmap, size_dom in Hsub by done.
    unfold ks in Hsub. rewrite length_seq in Hsub. lia.
  - apply not_Forall_Exists in Hex; [|apply _].
    apply Exists_exists in Hex as (k & Hk & Hfree).
    exists k. split.
    + apply elem_of_seq in Hk. lia.
    + by apply eq_None_not_Some.
Qed.

(** A loop that ends returns an id that is not a key of the table. *)
Lemma generate_loop_fresh fuel pending name time id iteration id' :
  generate_loop fuel pending name time id iteration = Ok id' →
  pending !! id' = None.
Proof.
  revert id iteration. induction fuel as [|fuel IH]; intros id iteration; simpl.
  - destruct (pending !! id) eqn:E; [done|]. by intros [= <-].
  - destruct (pending !! id) eqn:E; [apply IH|]. by intros [= <-].
Qed.

(** From the second pass on the id under test carries the suffix
    [iteration - 1]; the loop ends at the first free suffix from there. *)
Lemma generate_loop_ends pending name time (d : nat) :
  ∀ (i : N) (fuel : nat),
    pending !! ((name +:+ time) +:+ number_to_string (i + N.of_nat d)) = None →
    d ≤ fuel →
    ∃ id, generate_loop fuel pending name time
            ((name +:+ time) +:+ number_to_string i) (i + 1) = Ok id.
Proof.
  induction d as [|d IH]; intros i fuel Hfree Hfuel.
  - replace (i + N.of_nat 0)%N with i in Hfree by lia.
    exists ((name +:+ time) +:+ number_to_string i).
    destruct fuel; simpl; by rewrite Hfree.
  - destruct fuel as [|fuel]; [lia|]. simpl.
    destruct (pending !! ((name +:+ time) +:+ number_to_string i)) eqn:E; [|by eauto].
    apply IH; [|lia].
    by replace (i + 1 + N.of_nat d)%N with (i + N.of_nat (S d))%N by lia.
Qed.

Lemma generate_loop_more_fuel pending name time fuel extra :
  ∀ id iteration id',
    generate_loop fuel pending name time id iteration = Ok id' →
    generate_loop (fuel + extra) pending name time id iteration = Ok id'.
Proof.
  induction fuel as [|fuel IH]; intros id iteration id'; simpl.
  - destruct (pending !! id) eqn:E; [done|].
    intros [= <-]. destruct extra; simpl; by rewrite E.
  - destruct (pending !! id) eqn:E; [apply IH|done].
Qed.

Lemma generateMessageId_within_ends pending name now :
  ∃ id, _generateMessageId_within (S (size pending)) pending name now = Ok id.
Proof.
  unfold _generateMessageId_within. simpl.
  destruct (pending !! _) eqn:E; [|by eauto].
  destruct (free_suffix_exists pending (name +:+ stringify now)) as (k & Hk & Hfree).
  apply (generate_loop_ends pending name (stringify now) k 0%N); [|done].
  by replace (0 + N.of_nat k)%N with (N.of_nat k) by lia.
Qed.

(** C10: for every pending table and every seed (method name and time stamp)
    the collision loop of [_generateMessageId] ends: [size pending + 1] runs
    of its body are enough, more change nothing, and the id returned is not a
    key of the table.  The first pass of a colliding seed leaves the loop
    with the same id and the counter at 1. *)
Theorem generateMessageId_terminates pending name now :
  ∃ id,
    (∀ extra,
       _generateMessageId_within (S (size pending) + extra) pending name now = Ok id) ∧
    pending !! id = None ∧
    (∀ fuel,
       let time := stringify now in
       let id0 := (name +:+ time) +:+ stringify 0 in
       match pending !! id0 with
       | Some _ =>
           generate_loop (S fuel) pending name time id0 0
           = generate_loop fuel pending name time id0 1
       | None => generate_loop fuel pending name time id0 0 = Ok id0
       end).
Proof.
  destruct (generateMessageId_within_ends pending name now) as [id Hid].
  exists id. split_and!.
  - intros extra. by apply generate_loop_more_fuel.
  - by apply generate_loop_fresh in Hid.
  - intros fuel time id0.
    destruct (pending !! id0) eqn:E.
    + simpl. fold time. fold id0. by rewrite E.
    + destruct fuel; simpl; fold time; fold id0; by rewrite E.
Qed.

End IdGeneration.

(** ** Outbound calls *)

Section Calls.
Context {Ty : Type}.
Implicit Types (b : ClientMessageBroker_ (Ty := Ty)) (ua : UiArguments (Ty := Ty)).
Implicit Types (l : list (FnArg (Ty := Ty))) (ser : Serializer (Ty := Ty)).

Lemma forEach_push_configured ser l fnArgs :
  forEach_push (Some ser) l fnArgs = Ok (fnArgs ++ map (encoded ser) l).
Proof.
  revert fnArgs. induction l as [|a l IH]; intros fnArgs; simpl.
  - by rewrite app_nil_r.
  - rewrite (cons_middle (encoded ser a)), app_assoc, <- IH.
    unfold encoded. by destruct (fa_type a).
Qed.

Lemma forEach_push_untyped (o : option Serializer) l fnArgs :
  Forall (λ a, fa_type a = None) l →
  forEach_push o l fnArgs = Ok (fnArgs ++ map fa_value l).
Proof.
  intros H. revert fnArgs. induction H as [|a l Ha _ IH]; intros fnArgs; simpl.
  - by rewrite app_nil_r.
  - rewrite Ha, IH. by rewrite <- app_assoc.
Qed.

(** Argument encoding can only throw the [TypeError] of a missing
    serializer, at an argument that carries a type tag; it never diverges. *)
Lemma forEach_push_outcome (o : option Serializer) l fnArgs :
  match forEach_push o l fnArgs with
  | Ok out => length out = length fnArgs + length l
  | Throw _ => o = None ∧ Exists (λ a, is_Some (fa_type a)) l
  | Diverge => False
  end.
Proof.
  revert fnArgs. induction l as [|a l IH]; intros fnArgs; simpl; [lia|].
  destruct (fa_type a) as [t|] eqn:Ht.
  - destruct o as [s|]; simpl.
    + specialize (IH (fnArgs ++ [serialize s (fa_value a) t])).
      destruct (forEach_push _ _ _); [|by destruct IH|done].
      rewrite length_app in IH. simpl in IH. lia.
    + split; [done|]. left. by rewrite Ht.
  - specialize (IH (fnArgs ++ [fa_value a])).
    destruct (forEach_push _ _ _);
      [|destruct IH; split; [done|by right]|done].
    rewrite length_app in IH. simpl in IH. lia.
Qed.

Lemma generateMessageId_ends b name now :
  ∃ id, _generateMessageId b name now = Ok id ∧ _pending b !! id = None.
Proof.
  destruct (generateMessageId_within_ends (_pending b) name now) as [id Hid].
  exists id. split; [done|].
  by apply generate_loop_fresh in Hid.
Qed.

(** A call without a return type: only the message is emitted. *)
Lemma runOnService_null b ua now fnArgs :
  call_args (_serializer b) ua = Ok fnArgs →
  runOnService b ua None now
  = Ok (emit (VObj (call_message (ua_method ua) fnArgs)) b, None).
Proof.
  unfold runOnService, call_args. intros ->. done.
Qed.

(** Registering a reaction on a promise that is still pending. *)
Lemma promise_then_pending p onF onR b rs :
  heap b !! p = Some {| pstate := Pending; reactions := rs |} →
  promise_then p onF onR b
  = (set_heap
       (λ h, <[p := {| pstate := Pending;
                       reactions := rs ++ [{| onFulfilled := onF; onRejected := onR;
                                              derived := length h |}] |}]>
               (h ++ [{| pstate := Pending; reactions := [] |}])) b,
     length (heap b)).
Proof.
  intros Hp. unfold promise_then, new_Promise. simpl.
  rewrite lookup_app_l by (by eapply lookup_lt_Some).
  by rewrite Hp.
Qed.

(** A call with a return type: the state it leaves, field by field. *)
Lemma runOnService_typed b ua rt now fnArgs :
  call_args (_serializer b) ua = Ok fnArgs →
  ∃ id,
    _generateMessageId b (ua_method ua) now = Ok id ∧
    _pending b !! id = None ∧
    runOnService b ua (Some rt) now
    = Ok ({| _pending := <[id := {| settles := length (heap b) |}]> (_pending b);
             _serializer := _serializer b;
             _sink := _sink b ++
               [VObj (<["id" := VStr id]> (call_message (ua_method ua) fnArgs))];
             heap := heap b ++ call_cells rt (length (heap b));
             microtasks := microtasks b;
             console := console b |},
          Some (length (heap b) + 2)).
Proof.
  intros Hargs.
  destruct (generateMessageId_ends b (ua_method ua) now) as (id & Hid & Hfresh).
  exists id. split_and!; [done..|].
  unfold runOnService, call_args in *. rewrite Hargs.
  unfold new_Promise, mbind, Res_bind. cbv beta iota zeta.
  change (_generateMessageId (set_heap _ b) (ua_method ua) now)
    with (_generateMessageId b (ua_method ua) now).
  rewrite Hid. unfold promise_catch.
  erewrite promise_then_pending; [|simpl; by apply list_lookup_middle].
  erewrite promise_then_pending; cycle 1.
  { simpl. rewrite list_lookup_insert_eq; [done|].
    rewrite !length_app. simpl. lia. }
  unfold emit, set_sink, set_heap, set_pending, call_message. simpl.
  rewrite ?length_insert, ?length_app. simpl.
  rewrite <- !app_assoc. simpl.
  rewrite (insert_app_r_alt (heap b)) by lia. rewrite Nat.sub_diag. simpl.
  rewrite <- app_assoc. simpl.
  rewrite (insert_app_r_alt (heap b)) by lia. rewrite Nat.sub_diag. simpl.
  unfold call_cells, catch_reaction, then_reaction.
  by replace (length (heap b) + 1 + 1) with (length (heap b) + 2) by lia.
Qed.

End Calls.

(** ** Claims on outbound calls *)

Section CallClaims.
Context {Ty : Type}.
Implicit Types (b : ClientMessageBroker_ (Ty := Ty)) (ua : UiArguments (Ty := Ty)).
Implicit Types (l : list (FnArg (Ty := Ty))) (ser : Serializer (Ty := Ty)).

Lemma call_message_args method fnArgs :
  call_message method fnArgs !! "args" = Some (VArr fnArgs).
Proof. done. Qed.

Lemma call_message_no_id method fnArgs :
  call_message method fnArgs !! "id" = None.
Proof. done. Qed.

Lemma call_message_id method fnArgs id :
  <["id" := VStr id]> (call_message method fnArgs) !! "id" = Some (VStr id).
Proof. done. Qed.

Lemma call_args_outcome (o : option Serializer) ua :
  match call_args o ua with
  | Ok _ => True
  | Throw _ =>
      o = None ∧ ∃ l, ua_args ua = Some l ∧ Exists (λ a, is_Some (fa_type a)) l
  | Diverge => False
  end.
Proof.
  unfold call_args. destruct (ua_args ua) as [l|]; [|done].
  pose proof (forEach_push_outcome o l []) as H.
  destruct (forEach_push o l []); [done|by destruct H; eauto|done].
Qed.

(** Arguments that can be encoded are encoded slot by slot. *)
Lemma call_args_slots (o : option Serializer) ua :
  encodable o ua → call_args o ua = Ok (slots o ua).
Proof.
  unfold encodable, call_args, slots. intros H.
  destruct (ua_args ua) as [l|]; [|done].
  destruct H as [[ser ->]|H].
  - by rewrite forEach_push_configured.
  - specialize (H l eq_refl). rewrite (forEach_push_untyped _ _ _ H). simpl. f_equal.
    induction H as [|a l Ha _ IH]; [done|]. simpl. rewrite IH. f_equal.
    unfold slot. by rewrite Ha.
Qed.

(** C4, as the code has it: a call with [returnType = null] whose arguments
    can be encoded (a serializer is configured, or no argument carries a
    type tag) returns [null], leaves the pending table and the promises as
    they were, and emits exactly [{method, args}], without an [id] key, the
    [args] being the slots of the call's arguments in their order.  In
    particular [call({method: "foo", args: [{value: 5, type: null}]}, null)]
    emits [{method: "foo", args: [5]}] on every broker. *)
Theorem runOnService_fire_and_forget b ua now :
  (encodable (_serializer b) ua →
   ∃ b',
     runOnService b ua None now = Ok (b', None) ∧
     _pending b' = _pending b ∧
     heap b' = heap b ∧
     _sink b'
     = _sink b ++ [VObj (call_message (ua_method ua) (slots (_serializer b) ua))] ∧
     call_message (ua_method ua) (slots (_serializer b) ua) !! "id" = None ∧
     dom (call_message (ua_method ua) (slots (_serializer b) ua))
     = {[ "method"; "args" ]}) ∧
  runOnService b
    {| ua_method := "foo";
       ua_args := Some [ {| fa_value := VNum 5; fa_type := None |} ] |} None now
  = Ok (emit (VObj {[ "method" := VStr "foo"; "args" := VArr [VNum 5] ]}) b, None).
Proof.
  split; [|done].
  intros Hargs%call_args_slots.
  eexists. split; [by apply runOnService_null|].
  split_and!; [done..|].
  unfold call_message. rewrite dom_insert_L, dom_singleton_L. done.
Qed.

(** C5: with a serializer configured, the [args] array of the emitted message
    has the length and the order of the argument entries: slot [i] is
    [serialize(value_i, type_i)] when entry [i] carries a type tag and the raw
    [value_i] when its tag is null. *)
Theorem runOnService_encodes_arguments b method l rt now ser :
  _serializer b = Some ser →
  ∃ b' promise message slots,
    runOnService b {| ua_method := method; ua_args := Some l |} rt now
    = Ok (b', promise) ∧
    last (_sink b') = Some (VObj message) ∧
    message !! "args" = Some (VArr slots) ∧
    length slots = length l ∧
    ∀ i a, l !! i = Some a →
      slots !! i
      = Some match fa_type a with
             | Some type => serialize ser (fa_value a) type
             | None => fa_value a
             end.
Proof.
  intros Hser.
  set (ua := {| ua_method := method; ua_args := Some l |}).
  assert (Hargs : call_args (_serializer b) ua = Ok (map (encoded ser) l)).
  { unfold call_args. simpl. rewrite Hser. exact (forEach_push_configured ser l []). }
  assert (Hslots : ∀ i a, l !! i = Some a →
            map (encoded ser) l !! i
            = Some match fa_type a with
                   | Some type => serialize ser (fa_value a) type
                   | None => fa_value a
                   end).
  { intros i a Hi. change (map (encoded ser) l) with (encoded ser <$> l).
    by rewrite list_lookup_fmap, Hi. }
  destruct rt as [rt|].
  - destruct (runOnService_typed b ua rt now _ Hargs) as (id & _ & _ & Hrun).
    eexists _, _, _, (map (encoded ser) l). split; [exact Hrun|]. simpl.
    rewrite last_snoc. split_and!; [done|done|by rewrite length_map|done].
  - eexists _, _, _, (map (encoded ser) l).
    split; [by apply runOnService_null|]. simpl.
    rewrite last_snoc. split_and!; [done|done|by rewrite length_map|done].
Qed.

(** Without type tags the values go out as they are, with or without a
    serializer. *)
Lemma runOnService_untyped_arguments b method l now :
  Forall (λ a, fa_type a = None) l →
  runOnService b {| ua_method := method; ua_args := Some l |} None now
  = Ok (emit (VObj (call_message method (map fa_value l))) b, None).
Proof.
  intros Hl.
  apply (runOnService_null b {| ua_method := method; ua_args := Some l |}).
  unfold call_args. simpl. exact (forEach_push_untyped _ l [] Hl).
Qed.

(** C9: a call whose [UiArguments] has no [args] array does not throw,
    whatever the return type and the serializer, and the [args] field of the
    emitted message is the empty array. *)
Theorem runOnService_without_args b method rt now :
  ∃ b' promise message,
    runOnService b {| ua_method := method; ua_args := None |} rt now
    = Ok (b', promise) ∧
    _sink b' = _sink b ++ [VObj message] ∧
    message !! "args" = Some (VArr []).
Proof.
  set (ua := {| ua_method := method; ua_args := None |}).
  assert (Hargs : call_args (_serializer b) ua = Ok []) by done.
  destruct rt as [rt|].
  - destruct (runOnService_typed b ua rt now _ Hargs) as (id & _ & _ & Hrun).
    eexists _, _, _. split; [exact Hrun|]. done.
  - eexists _, _, _. split; [by apply runOnService_null|]. done.
Qed.

(** What one call with a return type does to the pending table. *)
Lemma runOnService_typed_id b ua rt now b1 promise :
  runOnService b ua (Some rt) now = Ok (b1, promise) →
  ∃ id,
    emitted_id b1 = Some id ∧
    _pending b !! id = None ∧
    _pending b1 = <[id := {| settles := length (heap b) |}]> (_pending b) ∧
    _serializer b1 = _serializer b.
Proof.
  intros Hrun.
  destruct (call_args (_serializer b) ua) as [fnArgs| |] eqn:E.
  - destruct (runOnService_typed b ua rt now _ E) as (id & _ & Hfresh & Hrun').
    rewrite Hrun' in Hrun. injection Hrun as <- <-.
    exists id. split_and!; [|done..].
    unfold emitted_id. simpl. by rewrite last_snoc, call_message_id.
  - unfold runOnService in Hrun. fold (call_args (_serializer b) ua) in Hrun.
    by rewrite E in Hrun.
  - unfold runOnService in Hrun. fold (call_args (_serializer b) ua) in Hrun.
    by rewrite E in Hrun.
Qed.

Lemma runOnService_typed_configured b ua rt now :
  is_Some (_serializer b) →
  ∃ b1 promise, runOnService b ua (Some rt) now = Ok (b1, promise).
Proof.
  intros [ser Hser].
  assert (∃ fnArgs, call_args (_serializer b) ua = Ok fnArgs) as [fnArgs E].
  { unfold call_args. rewrite Hser. destruct (ua_args ua) as [l|]; [|by eauto].
    rewrite forEach_push_configured. by eauto. }
  destruct (runOnService_typed b ua rt now _ E) as (id & _ & _ & Hrun).
  by eauto.
Qed.

(** C2: the ids generated for any sequence of calls issued with return types
    before a response arrives are pairwise distinct.  Each is absent from
    the pending table when it is generated and is inserted before the next
    call, so no entry of the table is overwritten and the table grows by one
    entry per call.  With a serializer configured every such sequence runs
    to its end. *)
Theorem issued_ids_distinct b calls :
  (is_Some (_serializer b) → ∃ b' ids, issue_all b calls = Ok (b', ids)) ∧
  ∀ b' ids, issue_all b calls = Ok (b', ids) →
    length ids = length calls ∧
    NoDup ids ∧
    (∀ id, id ∈ ids → _pending b !! id = None ∧ is_Some (_pending b' !! id)) ∧
    (∀ id c, _pending b !! id = Some c → _pending b' !! id = Some c) ∧
    size (_pending b') = size (_pending b) + length calls.
Proof.
  revert b. induction calls as [|[[ua rt] now] rest IH]; intros b.
  - split; [by eauto|]. intros b' ids [= <- <-].
    split_and!; [done|constructor|by intros id ?%elem_of_nil|done|simpl; lia].
  - split.
    + intros Hser.
      destruct (runOnService_typed_configured b ua rt now Hser) as (b1 & pr & Hrun).
      destruct (runOnService_typed_id _ _ _ _ _ _ Hrun) as (id & Hid & _ & _ & Hs).
      destruct (proj1 (IH b1)) as (b' & ids & Hrest); [by rewrite Hs|].
      exists b', (id :: ids). simpl. rewrite Hrun. simpl. rewrite Hid. simpl.
      by rewrite Hrest.
    + intros b' ids Hall. simpl in Hall.
      destruct (runOnService b ua (Some rt) now) as [[b1 pr]| |] eqn:Hrun; [|done..].
      destruct (runOnService_typed_id _ _ _ _ _ _ Hrun)
        as (id & Hid & Hfresh & Hpend & _).
      simpl in Hall. rewrite Hid in Hall. simpl in Hall.
      destruct (issue_all b1 rest) as [[b2 ids']| |] eqn:Hrest; [|done..].
      simpl in Hall. injection Hall as <- <-.
      destruct (proj2 (IH b1) _ _ Hrest) as (Hlen & Hnd & Hnew & Hold & Hsize).
      assert (Hid1 : _pending b1 !! id = Some {| settles := length (heap b) |})
        by (by rewrite Hpend, lookup_insert_eq).
      split_and!.
      * simpl. by rewrite Hlen.
      * constructor; [|done].
        intros Hin. apply Hnew in Hin as [Hnone _]. congruence.
      * intros id' [->|Hin]%elem_of_cons.
        -- split; [done|]. rewrite (Hold _ _ Hid1). by eauto.
        -- apply Hnew in Hin as [Hnone Hsome]. split; [|done].
           rewrite Hpend in Hnone. by apply lookup_insert_None in Hnone as [? _].
      * intros id' c Hc. apply Hold. rewrite Hpend.
        rewrite lookup_insert_ne; [done|]. intros ->. congruence.
      * rewrite Hsize, Hpend, map_size_insert_None by done. simpl. lia.
Qed.

End CallClaims.

(** ** Claims on inbound messages *)

Section InboundClaims.
Context {Ty : Type}.
Implicit Types (b : ClientMessageBroker_ (Ty := Ty)) (message : JsObj).

Lemma strict_eq_str_true x s : strict_eq_str x s = true ↔ x = VStr s.
Proof.
  destruct x; simpl; try (split; [done|discriminate]).
  rewrite bool_decide_eq_true. split; [by intros ->|by intros [= ->]].
Qed.

Lemma get_property_str message key s :
  get_property message key = VStr s ↔ message !! key = Some (VStr s).
Proof.
  unfold get_property. destruct (message !! key); simpl; [|done].
  split; [by intros ->|by intros [= ->]].
Qed.

(** On a payload that does not shadow [hasOwnProperty] a field is read as
    its value, [null] when it is missing. *)
Lemma getValueIfPresent_unshadowed message key :
  message !! "hasOwnProperty" = None →
  _getValueIfPresent message key = Ok (default VNull (message !! key)).
Proof.
  intros H. unfold _getValueIfPresent, hasOwnProperty, get_property. rewrite H. simpl.
  f_equal. case_bool_decide as Hpresent.
  - by destruct Hpresent as [v ->].
  - destruct (message !! key) eqn:E; [|done]. exfalso. apply Hpresent. by eauto.
Qed.

Lemma new_MessageData_unshadowed message :
  message !! "hasOwnProperty" = None →
  new_MessageData message
  = Ok {| md_type := get_property message "type";
          md_id := default VNull (message !! "id");
          md_value := default VNull (message !! "value") |}.
Proof.
  intros H. unfold new_MessageData.
  by rewrite !getValueIfPresent_unshadowed.
Qed.

(** On a payload that shadows it, the first call of [hasOwnProperty]
    throws, whatever the type and the id of the message. *)
Lemma handleMessage_shadowed b message :
  is_Some (message !! "hasOwnProperty") →
  _handleMessage b message = Throw (VTypeError "data.hasOwnProperty is not a function").
Proof.
  intros [v H].
  unfold _handleMessage, new_MessageData, _getValueIfPresent, hasOwnProperty.
  by rewrite H.
Qed.

Lemma settle_pending p o b : _pending (settle p o b) = _pending b.
Proof.
  unfold settle. by destruct (heap b !! p) as [[[|] ?]|].
Qed.

Lemma runJob_pending j b : _pending (runJob j b) = _pending b.
Proof.
  unfold runJob.
  destruct j as [[onF onR d] [v|e]]; simpl.
  - destruct onF as [[c|rt]|]; simpl; unfold completer_reject;
      rewrite ?settle_pending; [done| |done].
    destruct (_serializer b); simpl; by rewrite settle_pending.
  - destruct onR as [[c|rt]|]; simpl; unfold completer_reject;
      rewrite ?settle_pending; [done| |done].
    destruct (_serializer b); simpl; by rewrite settle_pending.
Qed.

Lemma runMicrotasks_pending fuel b : _pending (runMicrotasks fuel b) = _pending b.
Proof.
  revert b. induction fuel as [|fuel IH]; intros b; simpl; [done|].
  destruct (microtasks b) as [|j q]; [done|].
  by rewrite IH, runJob_pending.
Qed.

(** A message that is not a [result] or an [error], or whose id is no key of
    the pending table, leaves the broker as it is. *)
Lemma handleMessage_ignored b message :
  message !! "hasOwnProperty" = None →
  (message !! "type" ≠ Some (VStr "result") ∧ message !! "type" ≠ Some (VStr "error")) ∨
  (∀ id, message !! "id" = Some (VStr id) → _pending b !! id = None) →
  _handleMessage b message = Ok b.
Proof.
  intros Hplain H. unfold _handleMessage.
  rewrite (new_MessageData_unshadowed _ Hplain). simpl. f_equal.
  destruct (strict_eq_str (get_property message "type") "result") eqn:E1;
    destruct (strict_eq_str (get_property message "type") "error") eqn:E2; simpl;
    [| | |done];
    (destruct H as [[H1 H2]|H];
     [ apply strict_eq_str_true, get_property_str in E1 ||
       apply strict_eq_str_true, get_property_str in E2; done
     | destruct (message !! "id") as [[| | | |id| | |]|] eqn:Eid; try done;
       simpl; by rewrite (H _ eq_refl) ]).
Qed.

(** A [result] or [error] message whose id is pending settles the completer of
    that id with the message's value and deletes the entry. *)
Lemma handleMessage_matched b message id c :
  message !! "hasOwnProperty" = None →
  message !! "id" = Some (VStr id) →
  _pending b !! id = Some c →
  (message !! "type" = Some (VStr "result") →
   _handleMessage b message
   = Ok (set_pending (delete id)
           (completer_resolve c (default VNull (message !! "value")) b))) ∧
  (message !! "type" = Some (VStr "error") →
   _handleMessage b message
   = Ok (set_pending (delete id)
           (completer_reject c (default VNull (message !! "value")) b))).
Proof.
  intros Hplain Hid Hc.
  split; intros Htype; unfold _handleMessage;
    rewrite (new_MessageData_unshadowed _ Hplain); unfold get_property; simpl;
    rewrite Htype, Hid; simpl; by rewrite Hc.
Qed.

(** Noise on the channel: a message that does not shadow [hasOwnProperty]
    and whose type is neither ["result"] nor ["error"], or whose id (absent,
    not a string, or unknown) matches no entry of the pending table, makes
    the handler return with the whole broker state as it was. *)
Lemma noise_is_ignored b message :
  message !! "hasOwnProperty" = None →
  (message !! "type" ≠ Some (VStr "result") ∧ message !! "type" ≠ Some (VStr "error")) ∨
  (∀ id, message !! "id" = Some (VStr id) → _pending b !! id = None) →
  _handleMessage b message = Ok b ∧
  ∀ fuel, deliver fuel b message = runMicrotasks fuel b.
Proof.
  intros Hplain H. pose proof (handleMessage_ignored b message Hplain H) as Hsame.
  split; [done|]. intros fuel. unfold deliver, after_handleMessage. by rewrite Hsame.
Qed.

(** Once a [result] or [error] message that does not shadow [hasOwnProperty]
    and carries a pending id has been handled, the id is no longer in the
    pending table, and a further such message with that id makes the handler
    return with the whole broker state as it was. *)
Lemma answered_id_is_spent b id message fuel :
  is_Some (_pending b !! id) →
  message !! "hasOwnProperty" = None →
  message !! "id" = Some (VStr id) →
  message !! "type" = Some (VStr "result") ∨ message !! "type" = Some (VStr "error") →
  _pending (deliver fuel b message) !! id = None ∧
  ∀ again,
    again !! "hasOwnProperty" = None →
    again !! "id" = Some (VStr id) →
    _handleMessage (deliver fuel b message) again = Ok (deliver fuel b message).
Proof.
  intros [c Hc] Hplain Hid Htype.
  assert (Hgone : _pending (deliver fuel b message) !! id = None).
  { unfold deliver, after_handleMessage. rewrite runMicrotasks_pending.
    destruct (handleMessage_matched b message id c Hplain Hid Hc) as [Hres Herr].
    destruct Htype as [Ht|Ht]; [rewrite (Hres Ht)|rewrite (Herr Ht)];
      simpl; by rewrite lookup_delete_eq. }
  split; [done|].
  intros again Hplain' Hagain.
  apply handleMessage_ignored; [done|]. right. intros id' Hid'.
  rewrite Hagain in Hid'. by injection Hid' as <-.
Qed.

(** C8, as the code has it: building [MessageData] from a payload that has
    no own property [hasOwnProperty] does not fail; [id] and [value] are
    [null] when the payload lacks them, [type] is read as it is and so is
    [undefined] when the payload lacks it; a field the payload has is taken
    over unchanged. *)
Theorem new_MessageData_fields (data : JsObj) :
  data !! "hasOwnProperty" = None →
  ∃ parsed,
    new_MessageData data = Ok parsed ∧
    (data !! "id" = None → md_id parsed = VNull) ∧
    (data !! "value" = None → md_value parsed = VNull) ∧
    (data !! "type" = None → md_type parsed = VUndefined) ∧
    (∀ v, data !! "id" = Some v → md_id parsed = v) ∧
    (∀ v, data !! "value" = Some v → md_value parsed = v) ∧
    (∀ v, data !! "type" = Some v → md_type parsed = v).
Proof.
  intros Hplain. eexists. split; [by apply new_MessageData_unshadowed|].
  unfold get_property. simpl.
  split_and!; by intros; simplify_option_eq.
Qed.

End InboundClaims.

(** ** Answers to outstanding calls *)

Section Answers.
Context {Ty : Type}.
Implicit Types (b : ClientMessageBroker_ (Ty := Ty)) (message : JsObj).
Implicit Types (rt : Ty) (p promise : PromiseId).

Lemma settle_pending_cell p o b rs :
  heap b !! p = Some {| pstate := Pending; reactions := rs |} →
  settle p o b
  = set_microtasks
      (λ q, q ++ map (λ r, {| job_reaction := r; job_outcome := o |}) rs)
      (set_heap (<[p := settled o]>) b).
Proof. intros H. unfold settle. by rewrite H. Qed.

Lemma settle_settled_cell p o b o' rs :
  heap b !! p = Some {| pstate := Settled o'; reactions := rs |} →
  settle p o b = b.
Proof. intros H. unfold settle. by rewrite H. Qed.

Lemma runMicrotasks_step fuel b j q :
  microtasks b = j :: q →
  runMicrotasks (S fuel) b = runMicrotasks fuel (runJob j (set_microtasks (λ _, q) b)).
Proof. intros H. simpl. by rewrite H. Qed.

Lemma runMicrotasks_done fuel b : microtasks b = [] → runMicrotasks fuel b = b.
Proof. intros H. destruct fuel; simpl; by rewrite ?H. Qed.

(** The four jobs a call can give rise to. *)
Lemma runJob_catch_fulfilled p v b :
  runJob {| job_reaction := catch_reaction p; job_outcome := Fulfilled v |} b
  = settle (p + 1) (Fulfilled v) b.
Proof. done. Qed.

Lemma runJob_catch_rejected p e b :
  runJob {| job_reaction := catch_reaction p; job_outcome := Rejected e |} b
  = settle (p + 1) (Fulfilled VUndefined)
      (settle p (Rejected e) (set_console (fmap (λ lines, lines ++ [e])) b)).
Proof. done. Qed.

Lemma runJob_then_fulfilled rt p v b :
  runJob {| job_reaction := then_reaction rt p; job_outcome := Fulfilled v |} b
  = settle (p + 2) (result_outcome b v) b.
Proof.
  unfold runJob, result_outcome. simpl. by destruct (_serializer b).
Qed.

Lemma runJob_then_rejected rt p e b :
  runJob {| job_reaction := then_reaction rt p; job_outcome := Rejected e |} b
  = settle (p + 2) (Rejected e) b.
Proof. done. Qed.

(** The two jobs queued when the completer of an outstanding call settles
    its promise with [o]: first the reaction registered by [catch], then the
    one registered by [then]. *)
Lemma run_call_jobs b p rt o fuel :
  heap b !! p = Some (settled o) →
  heap b !! (p + 1) = Some {| pstate := Pending; reactions := [] |} →
  heap b !! (p + 2) = Some {| pstate := Pending; reactions := [] |} →
  microtasks b
  = [ {| job_reaction := catch_reaction p; job_outcome := o |};
      {| job_reaction := then_reaction rt p; job_outcome := o |} ] →
  runMicrotasks (S (S fuel)) b
  = match o with
    | Fulfilled v =>
        set_microtasks (λ _, [])
          (set_heap (λ h, <[p + 2 := settled (result_outcome b v)]>
                            (<[p + 1 := settled (Fulfilled v)]> h)) b)
    | Rejected e =>
        set_console (fmap (λ lines, lines ++ [e]))
          (set_microtasks (λ _, [])
             (set_heap (λ h, <[p + 2 := settled (Rejected e)]>
                               (<[p + 1 := settled (Fulfilled VUndefined)]> h)) b))
    end.
Proof.
  intros H0 H1 H2 Hq.
  rewrite (runMicrotasks_step _ _ _ _ Hq).
  destruct b as [pend ser sink h q con]. simpl in H0, H1, H2, Hq. subst q.
  destruct o as [v|e].
  - rewrite runJob_catch_fulfilled.
    erewrite settle_pending_cell by exact H1.
    unfold set_microtasks, set_heap. simpl.
    rewrite runJob_then_fulfilled.
    erewrite settle_pending_cell; cycle 1.
    { simpl. rewrite list_lookup_insert_ne by lia. exact H2. }
    unfold set_microtasks, set_heap. simpl.
    by rewrite runMicrotasks_done.
  - rewrite runJob_catch_rejected.
    erewrite (settle_settled_cell p) by exact H0.
    erewrite settle_pending_cell by exact H1.
    unfold set_microtasks, set_heap, set_console. simpl.
    rewrite runJob_then_rejected.
    erewrite settle_pending_cell; cycle 1.
    { simpl. rewrite list_lookup_insert_ne by lia. exact H2. }
    unfold set_microtasks, set_heap. simpl.
    by rewrite runMicrotasks_done.
Qed.

(** Answering an outstanding call. *)
Lemma answer_outstanding b id rt promise c o fuel :
  microtasks b = [] →
  _pending b !! id = Some c →
  outstanding b id rt promise →
  runMicrotasks (S (S fuel)) (set_pending (delete id) (settle (settles c) o b))
  = answer_state b id (settles c) o.
Proof.
  intros Hq Hc (p & Hp & -> & H0 & H1 & H2).
  rewrite Hp in Hc. injection Hc as <-. cbn [settles].
  assert (Hlt : p < length (heap b)) by (by eapply lookup_lt_Some).
  erewrite settle_pending_cell by exact H0.
  erewrite (run_call_jobs _ p rt o); cycle 1.
  - simpl. by rewrite list_lookup_insert_eq.
  - simpl. by rewrite list_lookup_insert_ne by lia.
  - simpl. by rewrite list_lookup_insert_ne by lia.
  - simpl. by rewrite Hq.
  - unfold answer_state, answered, set_microtasks, set_heap, set_pending,
      set_console, result_outcome.
    destruct o; done.
Qed.

Lemma after_handleMessage_ignored b message :
  message !! "hasOwnProperty" = None →
  (message !! "type" ≠ Some (VStr "result") ∧ message !! "type" ≠ Some (VStr "error")) ∨
  (∀ id, message !! "id" = Some (VStr id) → _pending b !! id = None) →
  after_handleMessage b message = b.
Proof.
  intros Hplain H. unfold after_handleMessage.
  by rewrite (handleMessage_ignored b message Hplain H).
Qed.

(** The handler leaves the broker as it was, or settles the completer of a
    pending id and deletes the entry. *)
Lemma handleMessage_cases b message :
  after_handleMessage b message = b ∨
  ∃ id c o,
    message !! "id" = Some (VStr id) ∧
    _pending b !! id = Some c ∧
    (message !! "type" = Some (VStr "result") ∧
       o = Fulfilled (default VNull (message !! "value")) ∨
     message !! "type" = Some (VStr "error") ∧
       o = Rejected (default VNull (message !! "value"))) ∧
    after_handleMessage b message = set_pending (delete id) (settle (settles c) o b).
Proof.
  destruct (message !! "hasOwnProperty") as [shadow|] eqn:Hplain.
  { left. unfold after_handleMessage. by rewrite handleMessage_shadowed by eauto. }
  destruct (message !! "id") as [v|] eqn:Hid; cycle 1.
  { left. apply after_handleMessage_ignored; [done|]. right. intros id. by rewrite Hid. }
  destruct v as [| | | |id| | |];
    try (left; apply after_handleMessage_ignored; [done|];
         right; intros id'; by rewrite Hid).
  destruct (_pending b !! id) as [c|] eqn:Hc; cycle 1.
  { left. apply after_handleMessage_ignored; [done|]. right. intros id'. rewrite Hid.
    by intros [= <-]. }
  destruct (handleMessage_matched b message id c Hplain Hid Hc) as [Hres Herr].
  destruct (strict_eq_str (get_property message "type") "result") eqn:E1.
  { apply strict_eq_str_true, get_property_str in E1.
    right. eexists id, c, _. split_and!; [done..|by left|].
    unfold after_handleMessage. by rewrite (Hres E1). }
  destruct (strict_eq_str (get_property message "type") "error") eqn:E2.
  { apply strict_eq_str_true, get_property_str in E2.
    right. eexists id, c, _. split_and!; [done..|by right|].
    unfold after_handleMessage. by rewrite (Herr E2). }
  left. apply after_handleMessage_ignored; [done|]. left.
  split; intros Ht; apply get_property_str, strict_eq_str_true in Ht; congruence.
Qed.

(** *** The invariant *)

Lemma broker_inv_new (ser : option Serializer) con :
  broker_inv (new_ClientMessageBroker_ (Ty := Ty) ser con).
Proof.
  split_and!; [done|..]; simpl; intros *; by rewrite lookup_empty.
Qed.

(** The promises of two outstanding calls do not overlap. *)
Lemma outstanding_apart b id id' rt rt' p q :
  broker_inv b →
  id' ≠ id →
  _pending b !! id = Some {| settles := p |} →
  outstanding b id rt (p + 2) →
  _pending b !! id' = Some {| settles := q |} →
  outstanding b id' rt' (q + 2) →
  q ≠ p ∧ q ≠ p + 1 ∧ q ≠ p + 2 ∧ p ≠ q + 1 ∧ p ≠ q + 2.
Proof.
  intros (_ & _ & Hinj) Hne Hp (p' & Hp' & _ & P0 & P1 & P2)
    Hq (q' & Hq' & _ & Q0 & Q1 & Q2).
  rewrite Hp in Hp'. injection Hp' as <-.
  rewrite Hq in Hq'. injection Hq' as <-.
  split_and!; intros ->.
  - by apply Hne, (Hinj id' id {| settles := p |}).
  - rewrite P1 in Q0. discriminate.
  - rewrite P2 in Q0. discriminate.
  - rewrite Q1 in P0. discriminate.
  - rewrite Q2 in P0. discriminate.
Qed.

Lemma answered_lookup_other p o o1 o2 (h : list (PromiseCell (Ty := Ty))) i :
  i ≠ p → i ≠ p + 1 → i ≠ p + 2 →
  answered p o o1 o2 h !! i = h !! i.
Proof.
  intros ???. unfold answered. by rewrite !list_lookup_insert_ne by done.
Qed.

(** An answer to one call leaves the other outstanding calls outstanding. *)
Lemma outstanding_answer_other b id c o id' rt' promise' :
  broker_inv b →
  _pending b !! id = Some c →
  id' ≠ id →
  outstanding b id' rt' promise' →
  outstanding (answer_state b id (settles c) o) id' rt' promise'.
Proof.
  intros Hinv Hc Hne Hout'.
  destruct c as [p].
  destruct (proj1 (proj2 Hinv) _ _ Hc) as [rt Hout].
  pose proof Hout' as (q & Hq & -> & Q0 & Q1 & Q2).
  destruct (outstanding_apart b id id' rt rt' p q) as (?&?&?&?&?); [done..|].
  exists q. simpl.
  rewrite lookup_delete_ne by done.
  rewrite !answered_lookup_other by lia. done.
Qed.

Lemma broker_inv_answer b id c o :
  broker_inv b →
  _pending b !! id = Some c →
  broker_inv (answer_state b id (settles c) o).
Proof.
  intros Hinv Hc. pose proof Hinv as (Hq & Hall & Hinj).
  split_and!; [done|..]; simpl.
  - intros id' c' [Hne Hc']%lookup_delete_Some.
    destruct (Hall _ _ Hc') as [rt' Hout']. exists rt'.
    by apply outstanding_answer_other.
  - intros id1 id2 c' [_ H1]%lookup_delete_Some [_ H2]%lookup_delete_Some.
    by eapply Hinj.
Qed.

(** What a delivery does, given the invariant: nothing, or the answer to the
    call pending under the message's id. *)
Lemma deliver_cases b message fuel :
  broker_inv b →
  deliver (S (S fuel)) b message = b ∨
  ∃ id c o,
    message !! "id" = Some (VStr id) ∧
    _pending b !! id = Some c ∧
    (message !! "type" = Some (VStr "result") ∧
       o = Fulfilled (default VNull (message !! "value")) ∨
     message !! "type" = Some (VStr "error") ∧
       o = Rejected (default VNull (message !! "value"))) ∧
    deliver (S (S fuel)) b message = answer_state b id (settles c) o.
Proof.
  intros Hinv. pose proof Hinv as (Hq & Hall & _). unfold deliver.
  destruct (handleMessage_cases b message) as [->|(id & c & o & Hid & Hc & Ho & ->)].
  - left. by apply runMicrotasks_done.
  - right. exists id, c, o. split_and!; [done..|].
    destruct (Hall _ _ Hc) as [rt Hout].
    by eapply answer_outstanding.
Qed.

Lemma broker_inv_deliver b message fuel :
  broker_inv b → broker_inv (deliver (S (S fuel)) b message).
Proof.
  intros Hinv.
  destruct (deliver_cases b message fuel Hinv)
    as [->|(id & c & o & _ & Hc & _ & ->)]; [done|].
  by apply broker_inv_answer.
Qed.

Lemma outstanding_deliver_other b message fuel id rt promise :
  broker_inv b →
  message !! "id" ≠ Some (VStr id) →
  outstanding b id rt promise →
  outstanding (deliver (S (S fuel)) b message) id rt promise.
Proof.
  intros Hinv Hne Hout.
  destruct (deliver_cases b message fuel Hinv)
    as [->|(id' & c & o & Hid' & Hc & _ & ->)]; [done|].
  apply outstanding_answer_other; [done..| |done].
  intros ->. by apply Hne.
Qed.

(** A call keeps the invariant and the calls that are outstanding; with a
    return type, the promise it returns is that of a new outstanding call,
    pending under the id of the message it emitted. *)
Lemma broker_inv_runOnService b (ua : UiArguments (Ty := Ty))
    (returnType : option Ty) now b' (returned : option PromiseId) :
  broker_inv b →
  runOnService b ua returnType now = Ok (b', returned) →
  broker_inv b' ∧
  (∀ id rt' promise', outstanding b id rt' promise' → outstanding b' id rt' promise') ∧
  match returnType with
  | Some rt =>
      ∃ id promise, returned = Some promise ∧ emitted_id b' = Some id ∧
                    _pending b !! id = None ∧ outstanding b' id rt promise
  | None => returned = None
  end.
Proof.
  intros Hinv Hrun. pose proof Hinv as (Hq & Hall & Hinj).
  destruct (call_args (_serializer b) ua) as [fnArgs| |] eqn:E; cycle 1.
  { unfold runOnService in Hrun. fold (call_args (_serializer b) ua) in Hrun.
    by rewrite E in Hrun. }
  { unfold runOnService in Hrun. fold (call_args (_serializer b) ua) in Hrun.
    by rewrite E in Hrun. }
  destruct returnType as [rt|].
  - destruct (runOnService_typed b ua rt now _ E) as (id & _ & Hfresh & Hrun').
    rewrite Hrun' in Hrun. injection Hrun as <- <-.
    set (n := length (heap b)).
    assert (Hkeep : ∀ id' rt' promise',
              outstanding b id' rt' promise' →
              outstanding
                {| _pending := <[id := {| settles := n |}]> (_pending b);
                   _serializer := _serializer b;
                   _sink := _sink b ++
                     [VObj (<["id" := VStr id]> (call_message (ua_method ua) fnArgs))];
                   heap := heap b ++ call_cells rt n;
                   microtasks := microtasks b;
                   console := console b |} id' rt' promise').
    { intros id' rt' promise' (q & Hq' & -> & Q0 & Q1 & Q2).
      exists q. simpl.
      rewrite lookup_insert_ne by (intros ->; congruence).
      split_and!; [done..| | |]; by apply lookup_app_l_Some. }
    assert (Hnew : outstanding
                {| _pending := <[id := {| settles := n |}]> (_pending b);
                   _serializer := _serializer b;
                   _sink := _sink b ++
                     [VObj (<["id" := VStr id]> (call_message (ua_method ua) fnArgs))];
                   heap := heap b ++ call_cells rt n;
                   microtasks := microtasks b;
                   console := console b |} id rt (n + 2)).
    { exists n. simpl. rewrite lookup_insert_eq.
      split_and!; [done..| | |].
      - unfold call_cells. by rewrite list_lookup_middle.
      - rewrite lookup_app_r by (unfold n; lia).
        by replace (n + 1 - length (heap b)) with 1 by (unfold n; lia).
      - rewrite lookup_app_r by (unfold n; lia).
        by replace (n + 2 - length (heap b)) with 2 by (unfold n; lia). }
    split_and!.
    + split_and!; [done|..]; simpl.
      * intros id' c'. rewrite lookup_insert.
        case_decide as Hid'; [intros [= <-]; subst id'; by exists rt|].
        intros Hc'. destruct (Hall _ _ Hc') as [rt' Hout']. exists rt'.
        by apply Hkeep.
      * assert (Hold : ∀ id', _pending b !! id' ≠ Some {| settles := n |}).
        { intros id' Hc'. destruct (Hall _ _ Hc') as [rt' (q & Hq' & _ & Q0 & _)].
          rewrite Hc' in Hq'. injection Hq' as <-.
          apply lookup_lt_Some in Q0. unfold n in Q0. lia. }
        intros id1 id2 c'. rewrite !lookup_insert.
        repeat case_decide; subst; try done.
        -- intros [= <-] H2. by apply Hold in H2.
        -- intros H1 [= <-]. by apply Hold in H1.
        -- by apply Hinj.
    + done.
    + exists id, (n + 2). split_and!; [done| |done..].
      unfold emitted_id. simpl. by rewrite last_snoc, call_message_id.
  - rewrite (runOnService_null _ _ _ _ E) in Hrun. injection Hrun as <- <-.
    split_and!; [|done..].
    split_and!; done.
Qed.

(** The invariant holds in every reachable state, where every pending id is
    thus that of an outstanding call. *)
Lemma reachable_inv b : reachable b → broker_inv b.
Proof.
  induction 1
    as [injected con|b ua returnType now b' returned _ IH Hrun|b message fuel _ IH].
  - apply broker_inv_new.
  - by destruct (broker_inv_runOnService _ _ _ _ _ _ IH Hrun).
  - by apply broker_inv_deliver.
Qed.

Lemma reachable_pending_outstanding b id :
  reachable b →
  is_Some (_pending b !! id) →
  ∃ rt promise, outstanding b id rt promise.
Proof.
  intros (_ & Hall & _)%reachable_inv [c Hc].
  destruct (Hall _ _ Hc) as [rt Hout]. by eauto.
Qed.

(** *** Results and errors *)

Lemma promise_state_answer b id p o :
  p + 2 < length (heap b) →
  promise_state (answer_state b id p o) (p + 2)
  = Some (Settled (returned_outcome b o)).
Proof.
  intros Hlt. unfold promise_state, answer_state, answered. simpl.
  rewrite list_lookup_insert_eq; [done|].
  by rewrite !length_insert.
Qed.

Lemma deliver_result_message b id rt promise v fuel :
  broker_inv b →
  outstanding b id rt promise →
  ∃ p, promise = p + 2 ∧ p + 2 < length (heap b) ∧
       deliver (S (S fuel)) b (result_message id v)
       = answer_state b id p (Fulfilled v).
Proof.
  intros (Hq & _) Hout. pose proof Hout as (p & Hp & -> & _ & _ & P2).
  exists p. split_and!; [done|by eapply lookup_lt_Some|].
  unfold deliver, after_handleMessage.
  rewrite (proj1 (handleMessage_matched b (result_message id v) id _
                    eq_refl eq_refl Hp) eq_refl).
  change (default VNull (result_message id v !! "value")) with v.
  unfold completer_resolve.
  by erewrite (answer_outstanding b id rt (p + 2) {| settles := p |}).
Qed.

Lemma deliver_error_message b id rt promise e fuel :
  broker_inv b →
  outstanding b id rt promise →
  ∃ p, promise = p + 2 ∧ p + 2 < length (heap b) ∧
       deliver (S (S fuel)) b (error_message id e)
       = answer_state b id p (Rejected e).
Proof.
  intros (Hq & _) Hout. pose proof Hout as (p & Hp & -> & _ & _ & P2).
  exists p. split_and!; [done|by eapply lookup_lt_Some|].
  unfold deliver, after_handleMessage.
  rewrite (proj2 (handleMessage_matched b (error_message id e) id _
                    eq_refl eq_refl Hp) eq_refl).
  change (default VNull (error_message id e !! "value")) with e.
  unfold completer_reject.
  by erewrite (answer_outstanding b id rt (p + 2) {| settles := p |}).
Qed.

(** What the code does with a [result] message for an outstanding call: the
    caller's promise is fulfilled with the raw value when a serializer is
    configured and rejected with a [TypeError] when none is; the id leaves
    the pending table. *)
Lemma result_settles_caller b id rt promise v fuel :
  broker_inv b →
  outstanding b id rt promise →
  promise_state (deliver (S (S fuel)) b (result_message id v)) promise
  = Some (Settled (result_outcome b v)) ∧
  _pending (deliver (S (S fuel)) b (result_message id v)) !! id = None ∧
  broker_inv (deliver (S (S fuel)) b (result_message id v)).
Proof.
  intros Hinv Hout.
  destruct (deliver_result_message b id rt promise v fuel Hinv Hout)
    as (p & -> & Hlt & Heq).
  split_and!; [| |by apply broker_inv_deliver].
  - rewrite Heq. by apply promise_state_answer.
  - rewrite Heq. simpl. by rewrite lookup_delete_eq.
Qed.

(** C6, as the code has it: an [error] message for an outstanding call
    rejects the promise its caller holds with the message's value as it is
    and removes the id from the pending table; the value is written to the
    console when [console.log] exists, and the caller's promise is rejected
    either way. *)
Theorem error_rejects_caller b id rt promise e fuel :
  broker_inv b →
  outstanding b id rt promise →
  promise_state (deliver (S (S fuel)) b (error_message id e)) promise
  = Some (Settled (Rejected e)) ∧
  _pending (deliver (S (S fuel)) b (error_message id e)) !! id = None ∧
  console (deliver (S (S fuel)) b (error_message id e))
  = (λ lines, lines ++ [e]) <$> console b ∧
  broker_inv (deliver (S (S fuel)) b (error_message id e)).
Proof.
  intros Hinv Hout.
  destruct (deliver_error_message b id rt promise e fuel Hinv Hout)
    as (p & -> & Hlt & Heq).
  split_and!; [| | |by apply broker_inv_deliver].
  - rewrite Heq. by apply promise_state_answer.
  - rewrite Heq. simpl. by rewrite lookup_delete_eq.
  - by rewrite Heq.
Qed.

End Answers.

(** ** The properties on the sample brokers *)

Lemma one_pending_issued :
  runOnService fresh_broker (call_foo None) (Some "T") 1478 = Ok (one_pending, Some 2) ∧
  emitted_id one_pending = Some "foo14780".
Proof. split; reflexivity. Qed.

Lemma one_pending_outstanding : outstanding one_pending "foo14780" "T" 2.
Proof. exists 0. split_and!; reflexivity. Qed.

Lemma one_pending_inv : broker_inv one_pending.
Proof.
  eapply broker_inv_runOnService;
    [apply (broker_inv_new (Some sample_serializer) (Some []))|].
  exact (proj1 one_pending_issued).
Qed.

Lemma one_pending_no_console_outstanding :
  outstanding one_pending_no_console "foo14780" "T" 2.
Proof. exists 0. split_and!; reflexivity. Qed.

Lemma one_pending_no_console_inv : broker_inv one_pending_no_console.
Proof.
  eapply (broker_inv_runOnService _ (call_foo None) (Some "T") 1478 _ (Some 2));
    [apply (broker_inv_new (Some sample_serializer) None)|].
  reflexivity.
Qed.

(** Without serializer, a call with [returnType = null] and an argument that
    carries a type tag returns nothing: it throws a [TypeError]. *)
Lemma fire_and_forget_throws_without_serializer :
  runOnService bare_broker
    (call_foo (Some [ {| fa_value := VNum 5; fa_type := Some "Number" |} ])) None 1478
  = Throw (VTypeError "Cannot read property of null").
Proof. reflexivity. Qed.

Lemma runOnService_fire_and_forget_witness :
  ∃ b',
    runOnService fresh_broker
      (call_foo (Some [ {| fa_value := VNum 5; fa_type := Some "Number" |};
                        {| fa_value := VStr "raw"; fa_type := None |} ])) None 1478
    = Ok (b', None) ∧
    _pending b' = _pending fresh_broker ∧
    heap b' = heap fresh_broker ∧
    _sink b'
    = _sink fresh_broker ++
      [VObj (call_message "foo" [VArr [VStr "Number"; VNum 5]; VStr "raw"])] ∧
    call_message "foo" [VArr [VStr "Number"; VNum 5]; VStr "raw"] !! "id"
    = (None : option JsVal) ∧
    dom (call_message "foo" [VArr [VStr "Number"; VNum 5]; VStr "raw"])
    = {[ "method"; "args" ]}.
Proof.
  apply (runOnService_fire_and_forget fresh_broker
           (call_foo (Some [ {| fa_value := VNum 5; fa_type := Some "Number" |};
                             {| fa_value := VStr "raw"; fa_type := None |} ])) 1478).
  left. by eexists.
Defined.

(** C1, on the code: [foo] is called with return type [T] on a broker with a
    serializer and is pending under ["foo14780"]; the message
    [{type: "result", id: "foo14780", value: 7}] fulfils the promise the
    caller holds with the raw 7, which is not [deserialize(7, T)].  Without
    serializer the same message rejects it with a [TypeError].  The id
    leaves the pending table in both cases. *)
Theorem result_is_not_decoded :
  runOnService fresh_broker (call_foo None) (Some "T") 1478 = Ok (one_pending, Some 2) ∧
  is_Some (_pending one_pending !! "foo14780") ∧
  promise_state (deliver 2 one_pending (result_message "foo14780" (VNum 7))) 2
  = Some (Settled (Fulfilled (VNum 7))) ∧
  VNum 7 ≠ deserialize sample_serializer (VNum 7) "T" ∧
  _pending (deliver 2 one_pending (result_message "foo14780" (VNum 7))) !! "foo14780"
  = None ∧
  promise_state
    (deliver 2 one_pending_no_serializer (result_message "foo14780" (VNum 7))) 2
  = Some (Settled (Rejected (VTypeError "Cannot read property of null"))) ∧
  _pending
    (deliver 2 one_pending_no_serializer (result_message "foo14780" (VNum 7)))
    !! "foo14780"
  = None.
Proof.
  split_and!; try reflexivity; [by eexists|discriminate].
Qed.

(** Where [console.log] does not exist an [error] message still rejects the
    caller's promise with its value, but nothing is logged. *)
Lemma error_not_logged_without_console :
  broker_inv one_pending_no_console ∧
  outstanding one_pending_no_console "foo14780" "T" 2 ∧
  promise_state
    (deliver 2 one_pending_no_console (error_message "foo14780" (VStr "boom"))) 2
  = Some (Settled (Rejected (VStr "boom"))) ∧
  ¬ logged
      (deliver 2 one_pending_no_console (error_message "foo14780" (VStr "boom")))
      (VStr "boom").
Proof.
  split_and!;
    [apply one_pending_no_console_inv|apply one_pending_no_console_outstanding
    |reflexivity|].
  intros (lines & Hcon & _). discriminate Hcon.
Qed.

Lemma error_rejects_caller_witness :
  promise_state (deliver 2 one_pending (error_message "foo14780" (VStr "boom"))) 2
  = Some (Settled (Rejected (VStr "boom"))) ∧
  _pending (deliver 2 one_pending (error_message "foo14780" (VStr "boom")))
    !! "foo14780" = None ∧
  console (deliver 2 one_pending (error_message "foo14780" (VStr "boom")))
  = (λ lines, lines ++ [VStr "boom"]) <$> console one_pending ∧
  broker_inv (deliver 2 one_pending (error_message "foo14780" (VStr "boom"))).
Proof.
  apply (error_rejects_caller one_pending "foo14780" "T" 2 (VStr "boom") 0).
  - exact one_pending_inv.
  - exact one_pending_outstanding.
Defined.

Lemma generateMessageId_terminates_sample :
  _generateMessageId one_pending "foo" 1478 = Ok "foo14781".
Proof. reflexivity. Qed.

Lemma three_calls_issued :
  issue_all fresh_broker three_calls
  = Ok (after_three_calls, ["foo14780"; "foo14781"; "foo14782"]).
Proof. vm_compute. reflexivity. Qed.

Lemma issued_ids_distinct_witness :
  length ["foo14780"; "foo14781"; "foo14782"] = length three_calls ∧
  NoDup ["foo14780"; "foo14781"; "foo14782"] ∧
  (∀ id, id ∈ ["foo14780"; "foo14781"; "foo14782"] →
     _pending fresh_broker !! id = None ∧ is_Some (_pending after_three_calls !! id)) ∧
  (∀ id c, _pending fresh_broker !! id = Some c →
     _pending after_three_calls !! id = Some c) ∧
  size (_pending after_three_calls)
  = size (_pending fresh_broker) + length three_calls.
Proof.
  apply (proj2 (issued_ids_distinct fresh_broker three_calls)).
  exact three_calls_issued.
Defined.

Lemma runOnService_encodes_arguments_witness :
  ∃ b' promise message slots,
    runOnService fresh_broker
      {| ua_method := "foo";
         ua_args := Some [ {| fa_value := VNum 5; fa_type := Some "Number" |};
                           {| fa_value := VStr "raw"; fa_type := None |} ] |}
      None 1478
    = Ok (b', promise) ∧
    last (_sink b') = Some (VObj message) ∧
    message !! "args" = Some (VArr slots) ∧
    length slots = 2 ∧
    ∀ i a,
      [ {| fa_value := VNum 5; fa_type := Some "Number" |};
        {| fa_value := VStr "raw"; fa_type := None |} ] !! i = Some a →
      slots !! i
      = Some match fa_type a with
             | Some type => serialize sample_serializer (fa_value a) type
             | None => fa_value a
             end.
Proof.
  apply (runOnService_encodes_arguments fresh_broker "foo"
           [ {| fa_value := VNum 5; fa_type := Some "Number" |};
             {| fa_value := VStr "raw"; fa_type := None |} ]
           None 1478 sample_serializer).
  reflexivity.
Defined.

(** C7, on the code: [{type: "ping", hasOwnProperty: 1}] is a message whose
    type is neither ["result"] nor ["error"] and whose id matches no pending
    entry; handling it throws a [TypeError], from [data.hasOwnProperty('id')]
    in the construction of [MessageData].  The same message without the
    field [hasOwnProperty] is ignored without a fault. *)
Theorem shadowed_noise_throws :
  shadowing {[ "type" := VStr "ping" ]} !! "type" = Some (VStr "ping") ∧
  shadowing {[ "type" := VStr "ping" ]} !! "id" = None ∧
  _handleMessage one_pending (shadowing {[ "type" := VStr "ping" ]})
  = Throw (VTypeError "data.hasOwnProperty is not a function") ∧
  _handleMessage one_pending {[ "type" := VStr "ping" ]} = Ok one_pending.
Proof. split_and!; vm_compute; reflexivity. Qed.

(** C3, on the code: the call pending under ["foo14780"] is not answered by
    a [result] message with that id that also has a field [hasOwnProperty]:
    the handler throws a [TypeError] and the id stays in the pending table.
    Once the call was answered and the id removed, a second message with the
    id that has such a field throws as well, where the same message without
    the field is ignored. *)
Theorem shadowed_answer_throws :
  is_Some (_pending one_pending !! "foo14780") ∧
  _handleMessage one_pending (shadowing (result_message "foo14780" (VNum 7)))
  = Throw (VTypeError "data.hasOwnProperty is not a function") ∧
  is_Some
    (_pending (deliver 2 one_pending (shadowing (result_message "foo14780" (VNum 7))))
       !! "foo14780") ∧
  _pending one_answered !! "foo14780" = None ∧
  _handleMessage one_answered (shadowing (result_message "foo14780" (VNum 7)))
  = Throw (VTypeError "data.hasOwnProperty is not a function") ∧
  _handleMessage one_answered (result_message "foo14780" (VNum 7)) = Ok one_answered.
Proof.
  split_and!; vm_compute; try reflexivity; by eexists.
Qed.

(** The [type] of a payload without that key is [undefined], not [null], and
    a payload with a field [hasOwnProperty] cannot be parsed at all. *)
Lemma absent_type_is_not_null :
  (∅ : JsObj) !! "type" = None ∧
  (∃ parsed, new_MessageData ∅ = Ok parsed ∧
             md_type parsed = VUndefined ∧ md_type parsed ≠ VNull) ∧
  new_MessageData (shadowing ∅)
  = Throw (VTypeError "data.hasOwnProperty is not a function").
Proof.
  split_and!; [reflexivity| |reflexivity].
  eexists. split_and!; [reflexivity|reflexivity|discriminate].
Qed.

Lemma new_MessageData_fields_witness :
  ∃ parsed,
    new_MessageData {[ "type" := VStr "ping" ]} = Ok parsed ∧
    (({[ "type" := VStr "ping" ]} : JsObj) !! "id" = None → md_id parsed = VNull) ∧
    (({[ "type" := VStr "ping" ]} : JsObj) !! "value" = None →
     md_value parsed = VNull) ∧
    (({[ "type" := VStr "ping" ]} : JsObj) !! "type" = None →
     md_type parsed = VUndefined) ∧
    (∀ v, ({[ "type" := VStr "ping" ]} : JsObj) !! "id" = Some v → md_id parsed = v) ∧
    (∀ v, ({[ "type" := VStr "ping" ]} : JsObj) !! "value" = Some v →
          md_value parsed = v) ∧
    (∀ v, ({[ "type" := VStr "ping" ]} : JsObj) !! "type" = Some v →
          md_type parsed = v).
Proof.
  apply (new_MessageData_fields {[ "type" := VStr "ping" ]}). reflexivity.
Defined.

(** * Further properties *)

(** ** The id generator *)

Section IdSuffix.
Context {Ty : Type}.
Implicit Types (b : ClientMessageBroker_ (Ty := Ty)).
Implicit Types (pending : gmap string PromiseCompleter).

Lemma seed_id_inj name now : Inj (=) (=) (seed_id name now).
Proof.
  intros i j H. apply suffix_inj in H. lia.
Qed.

(** The first free suffix below a free one. *)
Lemma least_free_suffix pending name now (n : nat) :
  pending !! seed_id name now n = None →
  ∃ k, k ≤ n ∧ pending !! seed_id name now k = None ∧
       ∀ j, j < k → is_Some (pending !! seed_id name now j).
Proof.
  induction n as [n IH] using lt_wf_ind. intros Hfree.
  destruct (decide (Forall (λ j, is_Some (pending !! seed_id name now j)) (seq 0 n)))
    as [Hall|Hex].
  - exists n. split_and!; [lia|done|].
    intros j Hj. rewrite Forall_forall in Hall. apply Hall, elem_of_seq. lia.
  - apply not_Forall_Exists in Hex; [|apply _].
    apply Exists_exists in Hex as (m & Hm & Hfree').
    apply elem_of_seq in Hm. apply eq_None_not_Some in Hfree'.
    destruct (IH m ltac:(lia) Hfree') as (k & Hk & ? & ?).
    exists k. split_and!; [lia|done..].
Qed.

(** From the second pass on the loop walks the suffixes upwards and stops at
    the first one that is free. *)
Lemma generate_loop_least pending name now (d : nat) :
  ∀ (i fuel : nat),
    pending !! seed_id name now (i + d) = None →
    (∀ j, i ≤ j < i + d → is_Some (pending !! seed_id name now j)) →
    d ≤ fuel →
    generate_loop fuel pending name (stringify now)
      (seed_id name now i) (N.of_nat i + 1)
    = Ok (seed_id name now (i + d)).
Proof.
  induction d as [|d IH]; intros i fuel Hfree Hocc Hfuel.
  - replace (i + 0) with i in * by lia.
    destruct fuel; simpl; by rewrite Hfree.
  - destruct fuel as [|fuel]; [lia|]. simpl.
    destruct (Hocc i ltac:(lia)) as [c ->].
    replace (N.of_nat i + 1)%N with (N.of_nat (S i)) by lia.
    replace (i + S d) with (S i + d) in * by lia.
    apply (IH (S i)); [done| |lia].
    intros j Hj. apply Hocc. lia.
Qed.

Lemma generateMessageId_least b name now :
  ∃ k : nat,
    k ≤ size (_pending b) ∧
    _generateMessageId b name now = Ok (seed_id name now k) ∧
    _pending b !! seed_id name now k = None ∧
    ∀ j, j < k → is_Some (_pending b !! seed_id name now j).
Proof.
  destruct (free_suffix_exists (_pending b) (name +:+ stringify now))
    as (n & Hn & Hfree).
  destruct (least_free_suffix (_pending b) name now n Hfree) as (k & Hk & Hk0 & Hlt).
  exists k. split_and!; [lia| |done..].
  unfold _generateMessageId, _generateMessageId_within.
  change ((name +:+ stringify now) +:+ stringify 0) with (seed_id name now 0).
  destruct k as [|k].
  - simpl. by rewrite Hk0.
  - simpl. destruct (Hlt 0 ltac:(lia)) as [c ->].
    apply (generate_loop_least (_pending b) name now (S k) 0 (size (_pending b)));
      [done| |lia].
    intros j Hj. apply Hlt. lia.
Qed.

(** X1: the id [_generateMessageId] returns is the method name, the time
    stamp and the least suffix for which that string is not a key of the
    pending table; the suffix is at most the size of the table, and it is 0
    whenever the string with suffix 0 is free, as on an empty table. *)
Theorem generateMessageId_least_suffix b name now :
  (∃ k : nat,
     k ≤ size (_pending b) ∧
     _generateMessageId b name now = Ok (seed_id name now k) ∧
     _pending b !! seed_id name now k = None ∧
     ∀ j, j < k → is_Some (_pending b !! seed_id name now j)) ∧
  match _pending b !! seed_id name now 0 with
  | None => _generateMessageId b name now = Ok (seed_id name now 0)
  | Some _ => _generateMessageId b name now ≠ Ok (seed_id name now 0)
  end.
Proof.
  pose proof (generateMessageId_least b name now) as (k & Hk & Hid & Hfree & Hlt).
  split; [by eauto|].
  destruct (_pending b !! seed_id name now 0) eqn:E.
  - rewrite Hid. intros [= Heq]. apply seed_id_inj in Heq. subst k. congruence.
  - destruct k as [|k]; [done|].
    destruct (Hlt 0 ltac:(lia)) as [c Hc]. congruence.
Qed.

End IdSuffix.

(** ** Calls *)

Section MoreCalls.
Context {Ty : Type}.
Implicit Types (b : ClientMessageBroker_ (Ty := Ty)) (ua : UiArguments (Ty := Ty)).
Implicit Types (l : list (FnArg (Ty := Ty))).

(** A call that returns has encoded its arguments. *)
Lemma runOnService_Ok_args b ua (returnType : option Ty) now b' returned :
  runOnService b ua returnType now = Ok (b', returned) →
  ∃ fnArgs, call_args (_serializer b) ua = Ok fnArgs.
Proof.
  intros Hrun. unfold runOnService in Hrun.
  fold (call_args (_serializer b) ua) in Hrun.
  destruct (call_args (_serializer b) ua) as [fnArgs| |]; [by eauto|done..].
Qed.

(** A missing serializer stops the encoding at the first tagged argument. *)
Lemma forEach_push_throws l fnArgs :
  Exists (λ a, is_Some (fa_type a)) l →
  forEach_push (Ty := Ty) None l fnArgs
  = Throw (VTypeError "Cannot read property of null").
Proof.
  intros H. revert fnArgs. induction H as [a l [t Ht]|a l _ IH]; intros fnArgs; simpl.
  - by rewrite Ht.
  - destruct (fa_type a); [done|]. apply IH.
Qed.

Lemma runOnService_of_args b ua (returnType : option Ty) now :
  match call_args (_serializer b) ua with
  | Ok _ => ∃ b' returned, runOnService b ua returnType now = Ok (b', returned)
  | Throw e => runOnService b ua returnType now = Throw e
  | Diverge => runOnService b ua returnType now = Diverge
  end.
Proof.
  destruct (call_args (_serializer b) ua) as [fnArgs| |] eqn:E.
  - destruct returnType as [rt|].
    + destruct (runOnService_typed b ua rt now _ E) as (id & _ & _ & Hrun). by eauto.
    + rewrite (runOnService_null _ _ _ _ E). by eauto.
  - unfold runOnService. fold (call_args (_serializer b) ua). by rewrite E.
  - unfold runOnService. fold (call_args (_serializer b) ua). by rewrite E.
Qed.

(** X3: [runOnService] throws exactly when the broker has no serializer and
    some argument carries a type tag, whatever the return type; what it
    throws is the [TypeError] of reading [serialize] off the missing
    serializer.  In every other case it returns. *)
Theorem runOnService_throws_iff b ua (returnType : option Ty) now :
  ((∃ e, runOnService b ua returnType now = Throw e) ↔
   _serializer b = None ∧
   ∃ l, ua_args ua = Some l ∧ Exists (λ a, is_Some (fa_type a)) l) ∧
  (∀ e, runOnService b ua returnType now = Throw e →
        e = VTypeError "Cannot read property of null") ∧
  ((∃ b' returned, runOnService b ua returnType now = Ok (b', returned)) ∨
   (∃ e, runOnService b ua returnType now = Throw e)).
Proof.
  pose proof (runOnService_of_args b ua returnType now) as Hrun.
  pose proof (call_args_outcome (_serializer b) ua) as Hout.
  assert (Hthrow : _serializer b = None →
            ∀ l, ua_args ua = Some l → Exists (λ a, is_Some (fa_type a)) l →
            call_args (_serializer b) ua
            = Throw (VTypeError "Cannot read property of null")).
  { intros Hser l Hl Hex. unfold call_args. rewrite Hl, Hser.
    by apply forEach_push_throws. }
  destruct (call_args (_serializer b) ua) as [fnArgs|e|] eqn:E; [| |done].
  - destruct Hrun as (b' & returned & Hrun). split_and!.
    + split.
      * intros [e He]. congruence.
      * intros (Hser & l & Hl & Hex). by specialize (Hthrow Hser l Hl Hex).
    + intros e He. congruence.
    + left. by eauto.
  - destruct Hout as (Hser & l & Hl & Hex).
    specialize (Hthrow Hser l Hl Hex). injection Hthrow as ->.
    split_and!.
    + split; [by eauto 10|by eauto].
    + intros e He. congruence.
    + right. by eauto.
Qed.

(** X12: arguments without type tag need no serializer: a call all of whose
    arguments have a null type returns on every broker, for every return
    type, and sends the raw values in their order. *)
Theorem runOnService_untagged b method l (returnType : option Ty) now :
  Forall (λ a, fa_type a = None) l →
  ∃ b' returned message,
    runOnService b {| ua_method := method; ua_args := Some l |} returnType now
    = Ok (b', returned) ∧
    _sink b' = _sink b ++ [VObj message] ∧
    message !! "args" = Some (VArr (map fa_value l)).
Proof.
  intros Hl.
  set (ua := {| ua_method := method; ua_args := Some l |}).
  assert (Hargs : call_args (_serializer b) ua = Ok (map fa_value l)).
  { unfold call_args. simpl. exact (forEach_push_untyped _ l [] Hl). }
  destruct returnType as [rt|].
  - destruct (runOnService_typed b ua rt now _ Hargs) as (id & _ & _ & Hrun).
    eexists _, _, _. split; [exact Hrun|]. done.
  - eexists _, _, _. split; [by apply runOnService_null|]. done.
Qed.

(** X4: a call with a return type that returns has emitted exactly one
    message, [{method, args, id}]; its id was not a key of the pending table
    and is the one key the call added; the promise returned is new and
    pending; no promise job was queued and nothing was logged. *)
Theorem runOnService_with_return_type b ua rt now b' returned :
  runOnService b ua (Some rt) now = Ok (b', returned) →
  ∃ id promise message,
    returned = Some promise ∧
    _sink b' = _sink b ++ [VObj message] ∧
    message !! "method" = Some (VStr (ua_method ua)) ∧
    message !! "id" = Some (VStr id) ∧
    dom message = {[ "method"; "args"; "id" ]} ∧
    _generateMessageId b (ua_method ua) now = Ok id ∧
    _pending b !! id = None ∧
    dom (_pending b') = {[ id ]} ∪ dom (_pending b) ∧
    promise_state b promise = None ∧
    promise_state b' promise = Some Pending ∧
    microtasks b' = microtasks b ∧
    console b' = console b.
Proof.
  intros Hrun.
  destruct (runOnService_Ok_args _ _ _ _ _ _ Hrun) as [fnArgs Hargs].
  destruct (runOnService_typed b ua rt now _ Hargs) as (id & Hid & Hfresh & Hrun').
  rewrite Hrun' in Hrun. injection Hrun as <- <-.
  eexists id, _, _. split_and!; try done; simpl.
  - by rewrite dom_insert_L.
  - unfold promise_state. rewrite lookup_ge_None_2; [done|lia].
  - unfold promise_state. simpl.
    rewrite lookup_app_r by lia.
    by replace (length (heap b) + 2 - length (heap b)) with 2 by lia.
Qed.

(** What no call does: it changes no entry of the pending table and the
    state of no promise. *)
Lemma runOnService_keeps b ua (returnType : option Ty) now b' returned :
  runOnService b ua returnType now = Ok (b', returned) →
  (∀ id c, _pending b !! id = Some c → _pending b' !! id = Some c) ∧
  (∀ p st, promise_state b p = Some st → promise_state b' p = Some st) ∧
  (∃ message, _sink b' = _sink b ++ [VObj message]) ∧
  microtasks b' = microtasks b ∧
  console b' = console b ∧
  _serializer b' = _serializer b.
Proof.
  intros Hrun.
  destruct (runOnService_Ok_args _ _ _ _ _ _ Hrun) as [fnArgs Hargs].
  destruct returnType as [rt|].
  - destruct (runOnService_typed b ua rt now _ Hargs) as (id & Hid & Hfresh & Hrun').
    rewrite Hrun' in Hrun. injection Hrun as <- <-. simpl.
    split_and!; [| |by eauto|done..].
    + intros id' c Hc. rewrite lookup_insert_ne; [done|]. intros ->. congruence.
    + intros p st. unfold promise_state. simpl.
      destruct (heap b !! p) as [cell|] eqn:Hp; [|done].
      by rewrite (lookup_app_l_Some _ _ _ _ Hp).
  - rewrite (runOnService_null _ _ _ _ Hargs) in Hrun. injection Hrun as <- <-.
    split_and!; [done|done|by eexists|done..].
Qed.

(** X5: a call that returns, with or without return type, emits exactly one
    message after those already emitted and leaves everything else that
    exists as it is: every entry of the pending table, the state of every
    promise, the job queue, the console and the serializer. *)
Theorem runOnService_frame b ua (returnType : option Ty) now b' returned :
  runOnService b ua returnType now = Ok (b', returned) →
  (∀ id c, _pending b !! id = Some c → _pending b' !! id = Some c) ∧
  (∀ p st, promise_state b p = Some st → promise_state b' p = Some st) ∧
  (∃ message, _sink b' = _sink b ++ [VObj message]) ∧
  microtasks b' = microtasks b ∧
  console b' = console b ∧
  _serializer b' = _serializer b.
Proof. apply runOnService_keeps. Qed.

End MoreCalls.

(** ** Calls in a row *)

Section CallsInARow.
Context {Ty : Type}.
Implicit Types (b : ClientMessageBroker_ (Ty := Ty)).

(** X2: calls with a return type made in a row for the same method at the
    same time stamp get the suffixes in counting order: when the suffixes
    below [n] are the ones taken, the ids are the method name and time stamp
    followed by [n], [n + 1], [n + 2], ... *)
Theorem issued_ids_count_up name now (calls : list (UiArguments (Ty := Ty) * Ty * N))
    b (n : nat) b' ids :
  (∀ k, is_Some (_pending b !! seed_id name now k) ↔ k < n) →
  Forall (λ c, ua_method c.1.1 = name ∧ c.2 = now) calls →
  issue_all b calls = Ok (b', ids) →
  ids = seed_id name now <$> seq n (length calls).
Proof.
  revert b n b' ids.
  induction calls as [|[[ua rt] t] rest IH]; intros b n b' ids Hocc Hcalls Hall.
  - by injection Hall as <- <-.
  - apply Forall_cons in Hcalls as [[Hname Htime] Hrest]. simpl in Hname, Htime.
    subst t. simpl in Hall.
    destruct (runOnService b ua (Some rt) now) as [[b1 pr]| |] eqn:Hrun; [|done..].
    destruct (runOnService_Ok_args _ _ _ _ _ _ Hrun) as [fnArgs Hargs].
    destruct (runOnService_typed b ua rt now _ Hargs) as (id & Hid & Hfresh & Hrun').
    rewrite Hrun' in Hrun. injection Hrun as <- <-.
    rewrite Hname in Hid.
    destruct (generateMessageId_least b name now) as (k & _ & Hk & Hkfree & Hklt).
    rewrite Hk in Hid. injection Hid as <-.
    assert (k = n) as ->.
    { destruct (decide (k < n)) as [Hlt|Hge].
      - apply Hocc in Hlt as [c Hc]. congruence.
      - destruct (decide (n < k)) as [Hlt|?]; [|lia].
        apply Hklt, Hocc in Hlt. lia. }
    unfold emitted_id in Hall. simpl in Hall.
    rewrite last_snoc, call_message_id in Hall. simpl in Hall.
    match type of Hall with
    | context [issue_all ?b1 rest] =>
        destruct (issue_all b1 rest) as [[b2 ids']| |] eqn:Hissue; [|done..];
        specialize (IH b1 (S n) b2 ids')
    end.
    simpl in Hall. injection Hall as <- <-.
    simpl. f_equal. apply IH; [|done..].
    intros j. simpl. rewrite lookup_insert.
    case_decide as Hj.
    + apply seed_id_inj in Hj. subst j. split; [lia|by eauto].
    + rewrite Hocc. split; [lia|]. intros ?.
      assert (j ≠ n) by (intros ->; done). lia.
Qed.

End CallsInARow.

(** ** Deliveries *)

Section MoreDeliveries.
Context {Ty : Type}.
Implicit Types (b : ClientMessageBroker_ (Ty := Ty)) (message : JsObj).
Implicit Types (rt : Ty) (p promise : PromiseId).

Lemma settle_sink_serializer p o b :
  _sink (settle p o b) = _sink b ∧ _serializer (settle p o b) = _serializer b.
Proof.
  unfold settle. by destruct (heap b !! p) as [[[|] ?]|].
Qed.

Lemma runJob_sink_serializer j b :
  _sink (runJob j b) = _sink b ∧ _serializer (runJob j b) = _serializer b.
Proof.
  unfold runJob.
  destruct j as [[onF onR d] [v|e]]; simpl.
  - destruct onF as [[c|rt]|]; simpl; unfold completer_reject.
    + destruct (settle_sink_serializer d (Fulfilled VUndefined)
                  (settle (settles c) (Rejected v)
                     (set_console (fmap (λ lines, lines ++ [v])) b))) as [-> ->].
      by destruct (settle_sink_serializer (settles c) (Rejected v)
                     (set_console (fmap (λ lines, lines ++ [v])) b)) as [-> ->].
    + destruct (_serializer b) eqn:E; simpl;
        match goal with |- context [settle ?q ?o b] =>
          destruct (settle_sink_serializer q o b) as [-> ->] end; by rewrite ?E.
    + apply settle_sink_serializer.
  - destruct onR as [[c|rt]|]; simpl; unfold completer_reject.
    + destruct (settle_sink_serializer d (Fulfilled VUndefined)
                  (settle (settles c) (Rejected e)
                     (set_console (fmap (λ lines, lines ++ [e])) b))) as [-> ->].
      by destruct (settle_sink_serializer (settles c) (Rejected e)
                     (set_console (fmap (λ lines, lines ++ [e])) b)) as [-> ->].
    + destruct (_serializer b) eqn:E; simpl;
        match goal with |- context [settle ?q ?o b] =>
          destruct (settle_sink_serializer q o b) as [-> ->] end; by rewrite ?E.
    + apply settle_sink_serializer.
Qed.

Lemma runMicrotasks_sink_serializer fuel b :
  _sink (runMicrotasks fuel b) = _sink b ∧
  _serializer (runMicrotasks fuel b) = _serializer b.
Proof.
  revert b. induction fuel as [|fuel IH]; intros b; simpl; [done|].
  destruct (microtasks b) as [|j q]; [done|].
  destruct (IH (runJob j (set_microtasks (λ _, q) b))) as [-> ->].
  exact (runJob_sink_serializer j (set_microtasks (λ _, q) b)).
Qed.

(** What no delivery does: it emits nothing, keeps the serializer, adds no
    entry to the pending table and touches no entry but the one under the
    id of the message. *)
Lemma deliver_keeps b message fuel :
  _sink (deliver fuel b message) = _sink b ∧
  _serializer (deliver fuel b message) = _serializer b ∧
  (∀ id c, _pending (deliver fuel b message) !! id = Some c →
           _pending b !! id = Some c) ∧
  (∀ id, message !! "id" ≠ Some (VStr id) →
         _pending (deliver fuel b message) !! id = _pending b !! id).
Proof.
  unfold deliver.
  destruct (runMicrotasks_sink_serializer fuel (after_handleMessage b message))
    as [-> ->].
  rewrite runMicrotasks_pending.
  destruct (handleMessage_cases b message) as [->|(id & c & o & Hid & Hc & _ & ->)];
    [done|].
  simpl. destruct (settle_sink_serializer (settles c) o b) as [-> ->].
  rewrite settle_pending.
  split_and!; [done..| |].
  - by intros id' c' [_ ?]%lookup_delete_Some.
  - intros id' Hne. rewrite lookup_delete_ne; [done|]. intros ->. by apply Hne.
Qed.

(** X6: delivering a message never emits one, never changes the serializer,
    never adds a pending entry, and leaves every pending entry alone whose id
    is not the string in the message's [id] field: at most that one entry is
    removed. *)
Theorem deliver_frame b message fuel :
  _sink (deliver fuel b message) = _sink b ∧
  _serializer (deliver fuel b message) = _serializer b ∧
  (∀ id c, _pending (deliver fuel b message) !! id = Some c →
           _pending b !! id = Some c) ∧
  (∀ id, message !! "id" ≠ Some (VStr id) →
         _pending (deliver fuel b message) !! id = _pending b !! id) ∧
  size (_pending b) ≤ S (size (_pending (deliver fuel b message))).
Proof.
  destruct (deliver_keeps b message fuel) as (Hsink & Hser & Hsub & Hother).
  split_and!; [done..|].
  unfold deliver. rewrite runMicrotasks_pending.
  destruct (handleMessage_cases b message) as [->|(id & c & o & Hid & Hc & _ & ->)];
    [lia|].
  simpl. rewrite settle_pending.
  rewrite <- (insert_delete_id (_pending b) id c Hc) at 1.
  rewrite map_size_insert_None by apply lookup_delete_eq. done.
Qed.

(** An [error] message of any shape for an outstanding call. *)
Lemma deliver_error_any b id rt promise message fuel :
  broker_inv b →
  outstanding b id rt promise →
  message !! "hasOwnProperty" = None →
  message !! "id" = Some (VStr id) →
  message !! "type" = Some (VStr "error") →
  ∃ p, promise = p + 2 ∧ p + 2 < length (heap b) ∧
       deliver (S (S fuel)) b message
       = answer_state b id p (Rejected (default VNull (message !! "value"))).
Proof.
  intros (Hq & _) Hout Hplain Hid Htype.
  pose proof Hout as (p & Hp & -> & _ & _ & P2).
  exists p. split_and!; [done|by eapply lookup_lt_Some|].
  unfold deliver, after_handleMessage.
  rewrite (proj2 (handleMessage_matched b message id _ Hplain Hid Hp) Htype).
  unfold completer_reject.
  by erewrite (answer_outstanding b id rt (p + 2) {| settles := p |}).
Qed.

(** X7: an [error] message for an outstanding call that has no own property
    [hasOwnProperty] rejects the caller's promise with the message's
    [value], and with [null] when the message has no [value] field; its
    further fields play no part. *)
Theorem error_value_or_null b id rt promise message fuel :
  broker_inv b →
  outstanding b id rt promise →
  message !! "hasOwnProperty" = None →
  message !! "id" = Some (VStr id) →
  message !! "type" = Some (VStr "error") →
  promise_state (deliver (S (S fuel)) b message) promise
  = Some (Settled (Rejected (default VNull (message !! "value")))) ∧
  _pending (deliver (S (S fuel)) b message) !! id = None.
Proof.
  intros Hinv Hout Hplain Hid Htype.
  destruct (deliver_error_any b id rt promise message fuel Hinv Hout Hplain Hid Htype)
    as (p & -> & Hlt & ->).
  split; [by apply promise_state_answer|].
  simpl. by rewrite lookup_delete_eq.
Qed.

End MoreDeliveries.

(** ** Calls over time *)

Section OverTime.
Context {Ty : Type}.
Implicit Types (b : ClientMessageBroker_ (Ty := Ty)) (message : JsObj).
Implicit Types (rt : Ty) (p promise : PromiseId).

(** Every pending id was sent. *)
Lemma reachable_sent b id :
  reachable b → is_Some (_pending b !! id) → sent b id.
Proof.
  intros Hreach. revert id.
  induction Hreach
    as [injected con|b ua returnType now b' returned _ IH Hrun|b message fuel _ IH];
    intros id [c Hc].
  - simpl in Hc. by rewrite lookup_empty in Hc.
  - destruct (runOnService_Ok_args _ _ _ _ _ _ Hrun) as [fnArgs Hargs].
    destruct returnType as [rt|].
    + destruct (runOnService_typed b ua rt now _ Hargs) as (id0 & _ & _ & Hrun').
      rewrite Hrun' in Hrun. injection Hrun as <- <-. simpl in Hc.
      rewrite lookup_insert in Hc. case_decide as Hid.
      * subst id0. eexists. split; [|apply call_message_id].
        simpl. apply elem_of_app. right. by apply list_elem_of_singleton.
      * destruct (IH id) as (m & Hm & Hmid); [by eauto|].
        exists m. split; [|done]. simpl. apply elem_of_app. by left.
    + rewrite (runOnService_null _ _ _ _ Hargs) in Hrun. injection Hrun as <- <-.
      destruct (IH id) as (m & Hm & Hmid); [by eauto|].
      exists m. split; [|done]. simpl. apply elem_of_app. by left.
  - destruct (deliver_keeps b message (S (S fuel))) as (Hsink & _ & Hsub & _).
    destruct (IH id) as (m & Hm & Hmid); [by eauto|].
    exists m. by rewrite Hsink.
Qed.

(** X9: in every state a broker can reach, no promise job is left over, and
    every id of the pending table is that of a call whose request was
    emitted and whose caller still holds a pending promise; two ids of the
    table never share a completer. *)
Theorem pending_ids_are_waiting_calls b :
  reachable b →
  microtasks b = [] ∧
  (∀ id, is_Some (_pending b !! id) →
     sent b id ∧
     ∃ rt promise, outstanding b id rt promise ∧
                   promise_state b promise = Some Pending) ∧
  (∀ id1 id2 c,
     _pending b !! id1 = Some c → _pending b !! id2 = Some c → id1 = id2).
Proof.
  intros Hreach. pose proof (reachable_inv b Hreach) as (Hq & Hall & Hinj).
  split_and!; [done| |done].
  intros id Hid. split; [by apply reachable_sent|].
  destruct Hid as [c Hc]. destruct (Hall _ _ Hc) as [rt Hout].
  exists rt, (settles c + 2). split; [done|].
  destruct Hout as (p & _ & -> & _ & _ & P2).
  unfold promise_state. by rewrite P2.
Qed.

(** Traffic that does not answer a call leaves it outstanding. *)
Lemma outstanding_traffic b b' id rt promise :
  broker_inv b →
  outstanding b id rt promise →
  traffic (other_than id) b b' →
  broker_inv b' ∧ outstanding b' id rt promise.
Proof.
  intros Hinv Hout Htr.
  induction Htr as [b|b b1 ua returnType now b2 returned _ IH Hrun
                    |b b1 message fuel _ IH Hother].
  - done.
  - destruct (IH Hinv Hout) as [Hinv1 Hout1].
    destruct (broker_inv_runOnService _ _ _ _ _ _ Hinv1 Hrun) as (? & Hkeep & _).
    split; [done|by apply Hkeep].
  - destruct (IH Hinv Hout) as [Hinv1 Hout1].
    split; [by apply broker_inv_deliver|by apply outstanding_deliver_other].
Qed.

(** X10: a call with a return type is answered by the message that carries
    its id, whatever happens in between: after any further calls and any
    deliveries of messages with other ids, the caller's promise is still
    pending and the id still in the pending table, and an [error] message
    with the id then rejects that promise with the message's value and
    removes the id. *)
Theorem call_waits_for_its_answer b ua rt now b1 returned :
  broker_inv b →
  runOnService b ua (Some rt) now = Ok (b1, returned) →
  ∃ id promise,
    returned = Some promise ∧
    emitted_id b1 = Some id ∧
    ∀ b2, traffic (other_than id) b1 b2 →
      promise_state b2 promise = Some Pending ∧
      is_Some (_pending b2 !! id) ∧
      ∀ e fuel,
        promise_state (deliver (S (S fuel)) b2 (error_message id e)) promise
        = Some (Settled (Rejected e)) ∧
        _pending (deliver (S (S fuel)) b2 (error_message id e)) !! id = None.
Proof.
  intros Hinv Hrun.
  destruct (broker_inv_runOnService _ _ _ _ _ _ Hinv Hrun)
    as (Hinv1 & _ & id & promise & -> & Hid & _ & Hout).
  exists id, promise. split_and!; [done..|].
  intros b2 Htr.
  destruct (outstanding_traffic b1 b2 id rt promise Hinv1 Hout Htr) as [Hinv2 Hout2].
  split_and!.
  - destruct Hout2 as (p & _ & -> & _ & _ & P2).
    unfold promise_state. by rewrite P2.
  - destruct Hout2 as (p & Hp & _). by eauto.
  - intros e fuel.
    destruct (deliver_error_any b2 id rt promise (error_message id e) fuel
                Hinv2 Hout2 eq_refl eq_refl eq_refl) as (p & -> & Hlt & ->).
    split; [by apply promise_state_answer|].
    simpl. by rewrite lookup_delete_eq.
Qed.



End OverTime.

(** ** The further properties on the sample brokers *)

Lemma issued_ids_count_up_witness :
  ["foo14780"; "foo14781"; "foo14782"]
  = seed_id "foo" 1478 <$> seq 0 (length three_calls).
Proof.
  apply (issued_ids_count_up "foo" 1478 three_calls fresh_broker 0 after_three_calls).
  - intros k. split; [|lia].
    intros [c Hc]. simpl in Hc. rewrite lookup_empty in Hc. discriminate Hc.
  - repeat constructor.
  - exact three_calls_issued.
Defined.

Lemma runOnService_with_return_type_witness :
  ∃ id promise message,
    Some 2 = Some promise ∧
    _sink one_pending = _sink fresh_broker ++ [VObj message] ∧
    message !! "method" = Some (VStr "foo") ∧
    message !! "id" = Some (VStr id) ∧
    dom message = {[ "method"; "args"; "id" ]} ∧
    _generateMessageId fresh_broker "foo" 1478 = Ok id ∧
    _pending fresh_broker !! id = None ∧
    dom (_pending one_pending) = {[ id ]} ∪ dom (_pending fresh_broker) ∧
    promise_state fresh_broker promise = None ∧
    promise_state one_pending promise = Some Pending ∧
    microtasks one_pending = microtasks fresh_broker ∧
    console one_pending = console fresh_broker.
Proof.
  apply (runOnService_with_return_type fresh_broker (call_foo None) "T" 1478).
  exact (proj1 one_pending_issued).
Defined.

Lemma runOnService_frame_witness :
  (∀ id c, _pending fresh_broker !! id = Some c → _pending one_pending !! id = Some c) ∧
  (∀ p st, promise_state fresh_broker p = Some st →
           promise_state one_pending p = Some st) ∧
  (∃ message, _sink one_pending = _sink fresh_broker ++ [VObj message]) ∧
  microtasks one_pending = microtasks fresh_broker ∧
  console one_pending = console fresh_broker ∧
  _serializer one_pending = _serializer fresh_broker.
Proof.
  apply (runOnService_frame fresh_broker (call_foo None) (Some "T") 1478 _ (Some 2)).
  exact (proj1 one_pending_issued).
Defined.

Lemma runOnService_untagged_witness :
  ∃ b' returned message,
    runOnService bare_broker
      (call_foo (Some [ {| fa_value := VNum 5; fa_type := None |} ])) (Some "T") 1478
    = Ok (b', returned) ∧
    _sink b' = _sink bare_broker ++ [VObj message] ∧
    message !! "args" = Some (VArr [VNum 5]).
Proof.
  apply (runOnService_untagged bare_broker "foo"
           [ {| fa_value := VNum 5; fa_type := None |} ] (Some "T") 1478).
  repeat constructor.
Defined.

Lemma error_value_or_null_witness :
  promise_state
    (deliver 2 one_pending {[ "type" := VStr "error"; "id" := VStr "foo14780" ]}) 2
  = Some (Settled (Rejected VNull)) ∧
  _pending
    (deliver 2 one_pending {[ "type" := VStr "error"; "id" := VStr "foo14780" ]})
    !! "foo14780"
  = None.
Proof.
  exact (error_value_or_null one_pending "foo14780" "T" 2
           {[ "type" := VStr "error"; "id" := VStr "foo14780" ]} 0
           one_pending_inv one_pending_outstanding eq_refl eq_refl eq_refl).
Defined.

Lemma one_pending_reachable : reachable one_pending.
Proof.
  eapply reachable_call; [|exact (proj1 one_pending_issued)].
  apply (reachable_new (Some sample_serializer) (Some [])).
Qed.

Lemma pending_ids_are_waiting_calls_witness :
  microtasks one_pending = [] ∧
  (∀ id, is_Some (_pending one_pending !! id) →
     sent one_pending id ∧
     ∃ rt promise, outstanding one_pending id rt promise ∧
                   promise_state one_pending promise = Some Pending) ∧
  (∀ id1 id2 c,
     _pending one_pending !! id1 = Some c → _pending one_pending !! id2 = Some c →
     id1 = id2).
Proof.
  apply (pending_ids_are_waiting_calls one_pending).
  exact one_pending_reachable.
Defined.

Lemma call_waits_for_its_answer_witness :
  ∃ id promise,
    Some 2 = Some promise ∧
    emitted_id one_pending = Some id ∧
    ∀ b2, traffic (other_than id) one_pending b2 →
      promise_state b2 promise = Some Pending ∧
      is_Some (_pending b2 !! id) ∧
      ∀ e fuel,
        promise_state (deliver (S (S fuel)) b2 (error_message id e)) promise
        = Some (Settled (Rejected e)) ∧
        _pending (deliver (S (S fuel)) b2 (error_message id e)) !! id = None.
Proof.
  apply (call_waits_for_its_answer fresh_broker (call_foo None) "T" 1478).
  - apply (broker_inv_new (Some sample_serializer) (Some [])).
  - exact (proj1 one_pending_issued).
Defined.


